(** * CRYSTALS-Dilithium software benchmark: parameters, harness and ring layer

    A shallow embedding of the Dilithium-2 benchmark sources and the
    properties their specification states about them.

    - [Params]: the parameter sets of [params.h].
    - [Harness]: [main.c], the statistics and the benchmark loop, with the
      calls into the platform and the signature library supplied from
      outside; once with the output alone and once with every call
      recorded.
    - [Poly]: the polynomial type of [poly.h].
    - [Reduce], [Ntt], [Rounding], [Packing]: the routines [poly.h] and
      [ntt.h] declare and the sources do not define, after the
      specification.

    The modules with the definitions come first; the modules named
    [...Theory] hold the properties. *)

From Stdlib Require Import String.
From Stdlib Require Import ZArith List Lia Bool Setoid Morphisms.
From Stdlib Require Import Permutation Sorted Znumtheory.
Import ListNotations.

Local Open Scope Z_scope.

(** ** params.h *)

Module Params.

(** [DILITHIUM_MODE] is set in [config.h]; [params.h] branches on the three
    values 2, 3 and 5. *)
Inductive mode : Type := Mode2 | Mode3 | Mode5.

Definition DILITHIUM_MODE (m : mode) : Z :=
  match m with Mode2 => 2 | Mode3 => 3 | Mode5 => 5 end.

Definition all_modes : list mode := [Mode2; Mode3; Mode5].

(** Common parameters for all Dilithium modes. *)
Definition SEEDBYTES : Z := 32.
Definition CRHBYTES : Z := 48.
Definition N : Z := 256.
Definition Q : Z := 8380417.
Definition D : Z := 13.
Definition ROOT_OF_UNITY : Z := 1753.

(** Mode-specific parameters, one [#if DILITHIUM_MODE == ...] branch each. *)
Definition K (m : mode) : Z :=
  match m with Mode2 => 4 | Mode3 => 6 | Mode5 => 8 end.
Definition L (m : mode) : Z :=
  match m with Mode2 => 4 | Mode3 => 5 | Mode5 => 7 end.
Definition ETA (m : mode) : Z :=
  match m with Mode2 => 2 | Mode3 => 4 | Mode5 => 2 end.
Definition TAU (m : mode) : Z :=
  match m with Mode2 => 39 | Mode3 => 49 | Mode5 => 60 end.
Definition BETA (m : mode) : Z :=
  match m with Mode2 => 78 | Mode3 => 196 | Mode5 => 120 end.
Definition GAMMA1 (m : mode) : Z :=
  match m with
  | Mode2 => Z.shiftl 1 17
  | Mode3 => Z.shiftl 1 19
  | Mode5 => Z.shiftl 1 19
  end.
Definition GAMMA2 (m : mode) : Z :=
  match m with
  | Mode2 => (Q - 1) / 88
  | Mode3 => (Q - 1) / 32
  | Mode5 => (Q - 1) / 32
  end.
Definition OMEGA (m : mode) : Z :=
  match m with Mode2 => 80 | Mode3 => 55 | Mode5 => 75 end.

Definition POLYT1_PACKEDBYTES : Z := 320.
Definition POLYT0_PACKEDBYTES : Z := 416.
Definition POLYVECH_PACKEDBYTES (m : mode) : Z := OMEGA m + K m.

(** [#if GAMMA1 == (1 << 17) ... #elif GAMMA1 == (1 << 19)]; no [#else]. *)
Definition POLYZ_PACKEDBYTES (m : mode) : option Z :=
  if GAMMA1 m =? Z.shiftl 1 17 then Some 576
  else if GAMMA1 m =? Z.shiftl 1 19 then Some 640
  else None.

(** [#if GAMMA2 == (Q-1)/88 ... #elif GAMMA2 == (Q-1)/32]. *)
Definition POLYW1_PACKEDBYTES (m : mode) : option Z :=
  if GAMMA2 m =? (Q - 1) / 88 then Some 192
  else if GAMMA2 m =? (Q - 1) / 32 then Some 128
  else None.

(** [#if ETA == 2 ... #elif ETA == 4]. *)
Definition POLYETA_PACKEDBYTES (m : mode) : option Z :=
  if ETA m =? 2 then Some 96
  else if ETA m =? 4 then Some 128
  else None.

Definition CRYPTO_PUBLICKEYBYTES (m : mode) : Z :=
  SEEDBYTES + K m * POLYT1_PACKEDBYTES.

Definition CRYPTO_SECRETKEYBYTES (m : mode) : option Z :=
  match POLYETA_PACKEDBYTES m with
  | Some eta_bytes =>
      Some (2 * SEEDBYTES + CRHBYTES
            + L m * eta_bytes
            + K m * eta_bytes
            + K m * POLYT0_PACKEDBYTES)
  | None => None
  end.

Definition CRYPTO_BYTES (m : mode) : option Z :=
  match POLYZ_PACKEDBYTES m with
  | Some z_bytes => Some (SEEDBYTES + L m * z_bytes + POLYVECH_PACKEDBYTES m)
  | None => None
  end.

(** Modular exponentiation by repeated multiplication, reducing at each
    step; used to evaluate powers of [ROOT_OF_UNITY] modulo [Q]. *)
Fixpoint pow_mod (b : Z) (e : nat) (q : Z) : Z :=
  match e with
  | O => 1 mod q
  | S e' => (b * pow_mod b e' q) mod q
  end.

(** No number from 2 up to [bound] divides [n]. *)
Definition no_divisor_upto (n : Z) (bound : nat) : bool :=
  forallb (fun d => negb (n mod Z.of_nat d =? 0)) (seq 2 (bound - 1)).

End Params.

(** ** main.c: the benchmark harness *)

Module Harness.
Import Params.

Definition MLEN : Z := 256.
Definition NRUNS : Z := 1000.
Definition NTESTS : Z := 10000.

(** [unsigned char sm[200+CRYPTO_BYTES]]: the number of bytes the harness
    reserves for the signed message. *)
Definition sizeof_sm (md : mode) : option Z :=
  option_map (fun crypto_bytes => 200 + crypto_bytes) (CRYPTO_BYTES md).

(** Modelled from the spec: [crypto_sign] is declared in [sign.h], which is
    not among the sources.  The spec (6) gives the signed message as the
    signature followed by the message, of length siglen + msglen, so
    [crypto_sign(sm, &smlen, m, mlen, sk)] stores [CRYPTO_BYTES + mlen]
    bytes at [sm] and sets [smlen] to that number. *)
Definition signed_message_length (md : mode) (mlen : Z) : option Z :=
  option_map (fun crypto_bytes => crypto_bytes + mlen) (CRYPTO_BYTES md).

(** [unsigned long] and [unsigned long long] on the Zynq-7000's 32-bit ARM
    core. *)
Definition ULONG_MOD : Z := 2 ^ 32.
Definition ULLONG_MOD : Z := 2 ^ 64.

Definition cmp_llu (a b : Z) : Z :=
  if a <? b then -1 else if b <? a then 1 else 0.

(** The C library's [qsort] with [cmp_llu] as comparison, as an insertion
    sort. *)
Fixpoint qsort_insert (x : Z) (l : list Z) : list Z :=
  match l with
  | [] => [x]
  | y :: l' => if cmp_llu x y <=? 0 then x :: l else y :: qsort_insert x l'
  end.

Definition qsort (l : list Z) : list Z := fold_right qsort_insert [] l.

(** [median] sorts the array in place and returns the middle element; the
    sorted array is returned with the value since the caller keeps using it. *)
Definition median (l : list Z) (llen : nat) : Z * list Z :=
  let l := qsort l in
  if Nat.eqb (llen mod 2) 0
  then (((nth (llen / 2 - 1) l 0 + nth (llen / 2) l 0) mod ULONG_MOD) / 2, l)
  else (nth (llen / 2) l 0, l).

Definition average (t : list Z) (tlen : nat) : Z :=
  let acc := fold_left (fun acc x => (acc + x) mod ULLONG_MOD) (firstn tlen t) 0 in
  (acc / Z.of_nat tlen) mod ULONG_MOD.

(** Output is recorded as the sequence of [printf] calls: the format string
    as it is spelled in the source and the values of its arguments. *)
Inductive printf_arg : Type :=
| ArgInt (v : Z)
| ArgStr (s : string).

Record printf_call : Type := Printf { fmt : string; args : list printf_arg }.

Definition print_results (s : string) (t : list Z) (tlen : nat) : list printf_call :=
  let '(med, t) := median t tlen in
  [ Printf "%s" [ArgStr s];
    Printf "\n" [];
    Printf "median:  %lu " [ArgInt med]; Printf "cycles" []; Printf "\n" [];
    Printf "average: %lu " [ArgInt (average t (tlen - 1))];
    Printf "cycles" []; Printf "\n" [];
    Printf "\n" [] ].

(** [memcmp(a, b, n)] on byte arrays: zero exactly when the first [n] bytes
    agree. *)
Fixpoint memcmp (a b : list Z) (n : nat) : Z :=
  match n, a, b with
  | S n', x :: a', y :: b' => if x =? y then memcmp a' b' n' else x - y
  | _, _, _ => 0
  end.

(** What the platform and the signature library hand back to [main] in one
    pass through the loop body: the random message, the three return codes,
    the outputs of [crypto_sign_open] and the three timer readings. *)
Record iteration : Type := {
  m : list Z;
  keypair_ret : Z;
  sign_ret : Z;
  open_ret : Z;
  mlen1 : Z;
  m1 : list Z;
  t_keypair : Z;
  t_sign : Z;
  t_open : Z
}.

(** The locals of [main] that outlive one iteration. *)
Record locals : Type := {
  cycles0 : list Z;
  cycles1 : list Z;
  cycles2 : list Z;
  stdout : list printf_call
}.

Definition print (c : printf_call) (st : locals) : locals :=
  {| cycles0 := cycles0 st; cycles1 := cycles1 st; cycles2 := cycles2 st;
     stdout := stdout st ++ [c] |}.

Definition set_cycles0 (v : Z) (st : locals) : locals :=
  {| cycles0 := cycles0 st ++ [v]; cycles1 := cycles1 st;
     cycles2 := cycles2 st; stdout := stdout st |}.
Definition set_cycles1 (v : Z) (st : locals) : locals :=
  {| cycles0 := cycles0 st; cycles1 := cycles1 st ++ [v];
     cycles2 := cycles2 st; stdout := stdout st |}.
Definition set_cycles2 (v : Z) (st : locals) : locals :=
  {| cycles0 := cycles0 st; cycles1 := cycles1 st; cycles2 := cycles2 st ++ [v];
     stdout := stdout st |}.

(** One pass through the body of the [for] loop.  The second component is
    [Some status] when the body executes [return status]. *)
Definition loop_body (it : iteration) (st : locals) : locals * option Z :=
  (* if ( ret_val = crypto_sign_keypair(pk, sk) != 0) { return 1;} *)
  let ret_val := if keypair_ret it =? 0 then 0 else 1 in
  if negb (ret_val =? 0) then (st, Some 1)
  else
    let st := set_cycles0 (t_keypair it) st in
    (* if ( (ret_val = crypto_sign(...)) != 0) { printf(...); } *)
    let ret_val := sign_ret it in
    let st := if negb (ret_val =? 0)
              then print (Printf "crypto_sign returned <%d>\n" [ArgInt ret_val]) st
              else st in
    let st := set_cycles1 (t_sign it) st in
    (* if ( (ret_val = crypto_sign_open(...)) != 0) { printf(...); } *)
    let ret_val := open_ret it in
    let st := if negb (ret_val =? 0)
              then print (Printf "crypto_sign_open returned <%d>\n" [ArgInt ret_val]) st
              else st in
    let st := set_cycles2 (t_open it) st in
    if negb (MLEN =? mlen1 it)
    then (print (Printf "length fail" []) st, Some 0)
    else if negb (memcmp (m it) (m1 it) (Z.to_nat MLEN) =? 0)
    then (print (Printf "message fail\n" []) st, Some 0)
    else (st, None).

(** [for (i = 0; i < NRUNS; i++)], with [n] the iterations still to run. *)
Fixpoint run_loop (w : nat -> iteration) (n i : nat) (st : locals)
  : locals * option Z :=
  match n with
  | O => (st, None)
  | S n' =>
      match loop_body (w i) st with
      | (st', Some status) => (st', Some status)
      | (st', None) => run_loop w n' (S i) st'
      end
  end.

Definition main (w : nat -> iteration) : Z * list printf_call :=
  let st := {| cycles0 := []; cycles1 := []; cycles2 := [];
               stdout := [Printf "hello world!\n" []] |} in
  match run_loop w (Z.to_nat NRUNS) 0 st with
  | (st, Some status) => (status, stdout st)
  | (st, None) =>
      (0, stdout st
          ++ [Printf "Signature tests PASSED... \n\n" []]
          ++ print_results "dilithium keygen: " (cycles0 st) (Z.to_nat NRUNS)
          ++ print_results "dilithium sign: " (cycles1 st) (Z.to_nat NRUNS)
          ++ print_results "dilithium verify: " (cycles2 st) (Z.to_nat NRUNS))
  end.

Definition exit_status (w : nat -> iteration) : Z := fst (main w).
Definition output (w : nat -> iteration) : list printf_call := snd (main w).

(** The message comparison of iteration [it] succeeds. *)
Definition roundtrip_ok (it : iteration) : Prop :=
  mlen1 it = MLEN /\ memcmp (m it) (m1 it) (Z.to_nat MLEN) = 0.

(** Iteration [i] is entered: every earlier iteration generated its key pair
    and recovered its message. *)
Definition reaches (w : nat -> iteration) (i : nat) : Prop :=
  forall j, (j < i)%nat -> keypair_ret (w j) = 0 /\ roundtrip_ok (w j).

Definition failure_message (c : printf_call) : Prop :=
  c = Printf "length fail" [] \/ c = Printf "message fail\n" [].

(** Iterations [i .. i+k-1] all pass. *)
Definition passes (w : nat -> iteration) (i k : nat) : Prop :=
  forall j, (j < k)%nat -> keypair_ret (w (i + j)%nat) = 0 /\ roundtrip_ok (w (i + j)%nat).

(** Sample iterations: one that passes, one whose message is not recovered
    and one whose key generation fails. *)
Definition passing_iteration : iteration :=
  {| m := repeat 1 256; keypair_ret := 0; sign_ret := 0; open_ret := 0;
     mlen1 := 256; m1 := repeat 1 256;
     t_keypair := 100; t_sign := 300; t_open := 200 |}.

Definition rejected_iteration : iteration :=
  {| m := repeat 1 256; keypair_ret := 0; sign_ret := 0; open_ret := -1;
     mlen1 := 256; m1 := repeat 0 256;
     t_keypair := 100; t_sign := 300; t_open := 200 |}.

Definition keygen_failed_iteration : iteration :=
  {| m := repeat 1 256; keypair_ret := -1; sign_ret := 0; open_ret := 0;
     mlen1 := 256; m1 := repeat 1 256;
     t_keypair := 100; t_sign := 300; t_open := 200 |}.

(** Two iterations that differ at most in what [crypto_sign] and
    [crypto_sign_open] returned and in the timer readings. *)
Definition same_checks (a b : iteration) : Prop :=
  keypair_ret a = keypair_ret b /\ mlen1 a = mlen1 b
  /\ m a = m b /\ m1 a = m1 b.

(** A run of [crypto_sign_open] that reports a failure although the message
    is recovered. *)
Definition unreported_iteration : iteration :=
  {| m := repeat 1 256; keypair_ret := 0; sign_ret := 0; open_ret := -1;
     mlen1 := 256; m1 := repeat 1 256;
     t_keypair := 100; t_sign := 300; t_open := 200 |}.

(** Sum of the measurements. *)
Definition sum_list (l : list Z) : Z := fold_right Z.add 0 l.

(** The message of a successful run. *)
Definition passed_message : printf_call :=
  Printf "Signature tests PASSED... \n\n" [].

(** What the loop prints is never the success message. *)
Definition loop_output (c : printf_call) : Prop :=
  fmt c <> fmt passed_message.

(** *** Statistics *)

(** The number of entries of [l] that are at most, respectively at least,
    [v]. *)
Definition count_le (v : Z) (l : list Z) : nat :=
  length (filter (fun x => x <=? v) l).
Definition count_ge (v : Z) (l : list Z) : nat :=
  length (filter (fun x => v <=? x) l).

(** The values an [unsigned long] holds. *)
Definition is_ulong (x : Z) : Prop := 0 <= x < ULONG_MOD.

(** Sample measurements: four small ones, and two of 2^31 cycles or more. *)
Definition sample_cycles : list Z := [5; 1; 9; 3].
Definition late_cycles : list Z := [4000000000; 3000000000].

(** *** The run with its calls recorded *)

(** What one pass through the loop body prints before its checks: the
    nonzero results of [crypto_sign] and [crypto_sign_open]. *)
Definition iteration_messages (it : iteration) : list printf_call :=
  (if negb (sign_ret it =? 0)
   then [Printf "crypto_sign returned <%d>\n" [ArgInt (sign_ret it)]]
   else [])
  ++ (if negb (open_ret it =? 0)
      then [Printf "crypto_sign_open returned <%d>\n" [ArgInt (open_ret it)]]
      else []).

(** The iterations [0 .. n-1] of a run. *)
Definition iterations (w : nat -> iteration) (n : nat) : list iteration :=
  map w (seq 0 n).

(** The calls [main] makes, in the order it makes them: into the platform,
    the random generator, the timer and the signature library (with the
    value each hands back), and its [printf] calls. *)
Inductive event : Type :=
| init_platform
| cleanup_platform
| randombytes (len : Z)
| scutimer_start
| scutimer_result (v : Z)
| crypto_sign_keypair (ret : Z)
| crypto_sign (mlen ret : Z)
| crypto_sign_open (ret mlen1 : Z)
| printf (c : printf_call).

(** [main] with its calls recorded: the locals as before and the events so
    far. *)
Record machine : Type := { vars : locals; trace : list event }.

Definition call (e : event) (mc : machine) : machine :=
  {| vars := vars mc; trace := trace mc ++ [e] |}.

Definition call_printf (c : printf_call) (mc : machine) : machine :=
  {| vars := print c (vars mc); trace := trace mc ++ [printf c] |}.

Definition assign (f : locals -> locals) (mc : machine) : machine :=
  {| vars := f (vars mc); trace := trace mc |}.

Definition loop_body_trace (it : iteration) (mc : machine) : machine * option Z :=
  let mc := call (randombytes MLEN) mc in
  let mc := call scutimer_start mc in
  let mc := call (crypto_sign_keypair (keypair_ret it)) mc in
  let ret_val := if keypair_ret it =? 0 then 0 else 1 in
  if negb (ret_val =? 0) then (mc, Some 1)
  else
    let mc := call (scutimer_result (t_keypair it)) mc in
    let mc := assign (set_cycles0 (t_keypair it)) mc in
    let mc := call scutimer_start mc in
    let mc := call (crypto_sign MLEN (sign_ret it)) mc in
    let ret_val := sign_ret it in
    let mc := if negb (ret_val =? 0)
              then call_printf (Printf "crypto_sign returned <%d>\n" [ArgInt ret_val]) mc
              else mc in
    let mc := call (scutimer_result (t_sign it)) mc in
    let mc := assign (set_cycles1 (t_sign it)) mc in
    let mc := call scutimer_start mc in
    let mc := call (crypto_sign_open (open_ret it) (mlen1 it)) mc in
    let ret_val := open_ret it in
    let mc := if negb (ret_val =? 0)
              then call_printf (Printf "crypto_sign_open returned <%d>\n" [ArgInt ret_val]) mc
              else mc in
    let mc := call (scutimer_result (t_open it)) mc in
    let mc := assign (set_cycles2 (t_open it)) mc in
    if negb (MLEN =? mlen1 it)
    then (call_printf (Printf "length fail" []) mc, Some 0)
    else if negb (memcmp (m it) (m1 it) (Z.to_nat MLEN) =? 0)
    then (call_printf (Printf "message fail\n" []) mc, Some 0)
    else (mc, None).

Fixpoint run_loop_trace (w : nat -> iteration) (n i : nat) (mc : machine)
  : machine * option Z :=
  match n with
  | O => (mc, None)
  | S n' =>
      match loop_body_trace (w i) mc with
      | (mc', Some status) => (mc', Some status)
      | (mc', None) => run_loop_trace w n' (S i) mc'
      end
  end.

Definition print_results_trace (s : string) (t : list Z) (tlen : nat)
    (mc : machine) : machine :=
  fold_left (fun mc c => call_printf c mc) (print_results s t tlen) mc.

Definition main_trace (w : nat -> iteration) : Z * list event :=
  let mc := {| vars := {| cycles0 := []; cycles1 := []; cycles2 := [];
                          stdout := [] |};
               trace := [] |} in
  let mc := call init_platform mc in
  let mc := call_printf (Printf "hello world!\n" []) mc in
  match run_loop_trace w (Z.to_nat NRUNS) 0 mc with
  | (mc, Some status) => (status, trace mc)
  | (mc, None) =>
      let mc := call_printf (Printf "Signature tests PASSED... \n\n" []) mc in
      let mc := print_results_trace "dilithium keygen: "
                  (cycles0 (vars mc)) (Z.to_nat NRUNS) mc in
      let mc := print_results_trace "dilithium sign: "
                  (cycles1 (vars mc)) (Z.to_nat NRUNS) mc in
      let mc := print_results_trace "dilithium verify: "
                  (cycles2 (vars mc)) (Z.to_nat NRUNS) mc in
      let mc := call cleanup_platform mc in
      (0, trace mc)
  end.

(** The [printf] calls among the events. *)
Definition printfs (tr : list event) : list printf_call :=
  flat_map (fun e => match e with printf c => [c] | _ => [] end) tr.

(** Whether the timer is running after an event, given whether it was
    running before. *)
Definition timer_after (running : bool) (e : event) : bool :=
  match e with
  | scutimer_start => true
  | scutimer_result _ => false
  | _ => running
  end.

(** Each event with whether the timer is running when it happens. *)
Fixpoint timed (running : bool) (tr : list event) : list (event * bool) :=
  match tr with
  | [] => []
  | e :: tr' => (e, running) :: timed (timer_after running e) tr'
  end.

Definition returned_message (c : printf_call) : Prop :=
  fmt c = "crypto_sign returned <%d>\n"%string
  \/ fmt c = "crypto_sign_open returned <%d>\n"%string.

(** Where each kind of event falls with respect to the timed windows. *)
Definition window_discipline (er : event * bool) : Prop :=
  let '(e, running) := er in
  match e with
  | crypto_sign_keypair _ | crypto_sign _ _ | crypto_sign_open _ _ =>
      running = true
  | scutimer_start => running = false
  | scutimer_result _ => running = true
  | printf c => running = true <-> returned_message c
  | init_platform | cleanup_platform | randombytes _ => running = false
  end.

(** Whether the timer is running after the events [tr] of a run. *)
Definition timer_running (tr : list event) : bool :=
  fold_left timer_after tr false.

(** The events of one pass through the loop body. *)
Definition iteration_events (it : iteration) : list event :=
  [randombytes MLEN; scutimer_start; crypto_sign_keypair (keypair_ret it)]
  ++ (if keypair_ret it =? 0
      then
        [scutimer_result (t_keypair it); scutimer_start;
         crypto_sign MLEN (sign_ret it)]
        ++ (if negb (sign_ret it =? 0)
            then [printf (Printf "crypto_sign returned <%d>\n"
                            [ArgInt (sign_ret it)])]
            else [])
        ++ [scutimer_result (t_sign it); scutimer_start;
            crypto_sign_open (open_ret it) (mlen1 it)]
        ++ (if negb (open_ret it =? 0)
            then [printf (Printf "crypto_sign_open returned <%d>\n"
                            [ArgInt (open_ret it)])]
            else [])
        ++ [scutimer_result (t_open it)]
        ++ (if negb (MLEN =? mlen1 it)
            then [printf (Printf "length fail" [])]
            else if negb (memcmp (m it) (m1 it) (Z.to_nat MLEN) =? 0)
            then [printf (Printf "message fail\n" [])]
            else [])
      else []).

(** Every event of [tr] falls where it should, the timer being stopped at
    the start. *)
Definition well_timed (tr : list event) : Prop :=
  Forall window_discipline (timed false tr).

(** A run that stops in iteration 2: its message is not recovered. *)
Definition rejected_run (i : nat) : iteration :=
  if Nat.eqb i 2 then rejected_iteration else passing_iteration.

(** The kinds of calls, to count them in a run. *)
Inductive callee : Type :=
| To_randombytes | To_scutimer_start | To_scutimer_result
| To_crypto_sign_keypair | To_crypto_sign | To_crypto_sign_open.

Definition is_call (f : callee) (e : event) : bool :=
  match f, e with
  | To_randombytes, randombytes _ => true
  | To_scutimer_start, scutimer_start => true
  | To_scutimer_result, scutimer_result _ => true
  | To_crypto_sign_keypair, crypto_sign_keypair _ => true
  | To_crypto_sign, crypto_sign _ _ => true
  | To_crypto_sign_open, crypto_sign_open _ _ => true
  | _, _ => false
  end.

(** How often a run calls [f]. *)
Definition calls (f : callee) (tr : list event) : nat :=
  length (filter (is_call f) tr).

(** The calls of a run in which [k] iterations got past the key generation
    and [failed] (0 or 1) stopped at it. *)
Definition call_counts (tr : list event) (k failed : nat) : Prop :=
  calls To_randombytes tr = (k + failed)%nat
  /\ calls To_crypto_sign_keypair tr = (k + failed)%nat
  /\ calls To_crypto_sign tr = k
  /\ calls To_crypto_sign_open tr = k
  /\ calls To_scutimer_result tr = (3 * k)%nat
  /\ calls To_scutimer_start tr = (3 * k + failed)%nat.

End Harness.

(** ** poly.h: the polynomial type *)

Module Poly.
Import Params.

(** [typedef struct { int32_t coeffs[N]; } poly;] *)
Record poly : Type := mkpoly { coeffs : list Z }.

(** Every element of [a] lies in [[lo, hi]]. *)
Definition coeffs_in (lo hi : Z) (a : list Z) : bool :=
  forallb (fun c => (lo <=? c) && (c <=? hi)) a.

(** Sample coefficient arrays of length N: the constant 1, the coefficients
    0, 1, ..., 255, and the coefficients 0, 1, 2, 0, 1, 2, ... *)
Definition unit_poly : list Z := 1 :: repeat 0 255.
Definition ramp_poly : list Z := map Z.of_nat (seq 0 256).
Definition small_poly : list Z := map (fun i => Z.of_nat (i mod 3)) (seq 0 256).

End Poly.

(** ** Field arithmetic (reduce) *)

Module Reduce.
Import Params.

(** Conversion to [int32_t] and [int64_t]: two's complement wrap-around. *)
Definition wrap32 (x : Z) : Z := (x + 2 ^ 31) mod 2 ^ 32 - 2 ^ 31.
Definition wrap64 (x : Z) : Z := (x + 2 ^ 63) mod 2 ^ 64 - 2 ^ 63.

(** Modelled from the spec (3, 4.A): the Montgomery constant R = 2^32
    modulo [Q], as a centred residue, and the constant [QINV]. *)
Definition MONT : Z := -4186625.
Definition QINV : Z := 58728449.

(** Modelled from the spec: [montgomery_reduce] is declared in [reduce.h],
    which is not among the sources.  The spec (4.A) gives its contract, for
    |a| < 2^31 * Q the result is a * R^-1 modulo Q in (-Q, Q), and the
    constant [QINV] = 58728449.  That constant is the inverse of [Q] modulo
    2^32 (the spec words it as the negated inverse), so the multiple of [Q]
    that clears the low word, [t * Q] with [t] the low word of [a * QINV],
    is subtracted, and the difference is shifted right by 32. *)
Definition montgomery_reduce (a : Z) : Z :=
  let t := wrap32 (wrap64 (wrap32 a * QINV)) in
  wrap32 (Z.shiftr (wrap64 (a - wrap64 (t * Q))) 32).

End Reduce.

(** ** Number-theoretic transform (ntt) *)

Module Ntt.
Import Params Reduce.

(** Reversal of the low 8 bits of [k]. *)
Definition brv (k : Z) : Z :=
  fold_left
    (fun acc i => Z.lor (Z.shiftl acc 1) (Z.land (Z.shiftr k (Z.of_nat i)) 1))
    (seq 0 8) 0.

(** The residue of [x] modulo [Q] of least absolute value. *)
Definition centered (x : Z) : Z :=
  let r := x mod Q in if r <=? (Q - 1) / 2 then r else r - Q.

(** Modelled from the spec: the table [zetas] is defined in [ntt.c], which is
    not among the sources.  The spec (4.B) describes it as the powers
    ROOT_OF_UNITY^(brv k) for k = 0 .. N-1 in Montgomery form, that is
    multiplied by R = 2^32 modulo Q; the entries are kept as centred
    residues. *)
Definition zetas_table : list Z :=
  Eval vm_compute in
    map (fun k => centered (pow_mod ROOT_OF_UNITY (Z.to_nat (brv (Z.of_nat k))) Q * 2 ^ 32))
        (seq 0 256).

Definition zetas (k : nat) : Z := nth k zetas_table 0.

(** Element-wise combination of two arrays. *)
Fixpoint map2 (f : Z -> Z -> Z) (xs ys : list Z) : list Z :=
  match xs, ys with
  | x :: xs', y :: ys' => f x y :: map2 f xs' ys'
  | _, _ => []
  end.

(** Modelled from the spec (4.B): the butterflies of one block of [2 * len]
    coefficients.  Coefficient [j] of the lower half and coefficient [j] of
    the upper half, (a, b), become (a + t, a - t) with
    t = montgomery_reduce(zeta * b). *)
Definition ntt_block (zeta : Z) (len : nat) (blk : list Z) : list Z :=
  let lo := firstn len blk in
  let hi := skipn len blk in
  map2 (fun x y => wrap32 (x + montgomery_reduce (wrap64 (zeta * y)))) lo hi
  ++ map2 (fun x y => wrap32 (x - montgomery_reduce (wrap64 (zeta * y)))) lo hi.

(** Modelled from the spec (4.B): one layer.  The array is cut into blocks
    of [2 * len] coefficients and each block takes the next table entry
    after [zetas k].  [blocks] is the number of blocks left and [a] the part
    of the array not yet transformed; the index of the last entry used is
    returned with the array. *)
Fixpoint ntt_layer (len blocks k : nat) (a : list Z) : nat * list Z :=
  match blocks with
  | O => (k, a)
  | S blocks' =>
      let k := S k in
      let blk := ntt_block (zetas k) len (firstn (2 * len) a) in
      let '(k', rest) := ntt_layer len blocks' k (skipn (2 * len) a) in
      (k', blk ++ rest)
  end.

(** Modelled from the spec (4.B): the layers, the block half length [len]
    being halved from one layer to the next until it is 0. *)
Fixpoint ntt_loop (fuel len k : nat) (a : list Z) : list Z :=
  match fuel with
  | O => a
  | S fuel' =>
      if Nat.eqb len 0 then a
      else
        let '(k', a') := ntt_layer len (Z.to_nat N / (2 * len)) k a in
        ntt_loop fuel' (len / 2) k' a'
  end.

(** Modelled from the spec: [ntt] is declared in [ntt.h] and defined in
    [ntt.c], which is not among the sources.  The spec (4.B) describes it as
    the in-place Cooley-Tukey transform over N = 256 with the table
    [zetas]; its butterfly sends (a, b) to (a + t, a - t) with
    t = montgomery_reduce(zeta * b).  The block length runs through
    128, 64, ..., 1: these are eight layers (the spec counts seven), the
    number that uses the table entries [zetas[1 .. 255]] once each and that
    the factor N^-1 of the inverse transform undoes. *)
Definition ntt (a : list Z) : list Z := ntt_loop 8 128 0 a.

(** Modelled from the spec (4.B): the Gentleman-Sande butterflies of one
    block.  (a, b) become (a + b, montgomery_reduce(zeta * (a - b))). *)
Definition invntt_block (zeta : Z) (len : nat) (blk : list Z) : list Z :=
  let lo := firstn len blk in
  let hi := skipn len blk in
  map2 (fun x y => wrap32 (x + y)) lo hi
  ++ map2 (fun x y => montgomery_reduce (wrap64 (zeta * wrap32 (x - y)))) lo hi.

(** Modelled from the spec (4.B): one layer of the inverse transform.  The
    table is read backwards: each block takes the negated entry before
    [zetas k]. *)
Fixpoint invntt_layer (len blocks k : nat) (a : list Z) : nat * list Z :=
  match blocks with
  | O => (k, a)
  | S blocks' =>
      let k := pred k in
      let blk := invntt_block (wrap32 (- zetas k)) len (firstn (2 * len) a) in
      let '(k', rest) := invntt_layer len blocks' k (skipn (2 * len) a) in
      (k', blk ++ rest)
  end.

(** Modelled from the spec (4.B): the layers of the inverse transform, the
    block half length [len] being doubled from 1 while it is below N. *)
Fixpoint invntt_loop (fuel len k : nat) (a : list Z) : list Z :=
  match fuel with
  | O => a
  | S fuel' =>
      if Nat.ltb len (Z.to_nat N) then
        let '(k', a') := invntt_layer len (Z.to_nat N / (2 * len)) k a in
        invntt_loop fuel' (2 * len) k' a'
      else a
  end.

(** Modelled from the spec (4.B): the constant F, N^-1 * R^2 modulo Q. *)
Definition F : Z := 41978.

(** Modelled from the spec: [invntt_tomont] is declared in [ntt.h] and
    defined in [ntt.c], which is not among the sources.  The spec (4.B)
    describes it as the Gentleman-Sande transform followed by the
    multiplication of every coefficient by the constant F = 41978, which is
    N^-1 * R^2 modulo Q, through [montgomery_reduce]. *)
Definition invntt_tomont (a : list Z) : list Z :=
  map (fun x => montgomery_reduce (wrap64 (F * x))) (invntt_loop 8 1 256 a).

End Ntt.

(** ** Auxiliary definitions for the transforms *)

Module NttRec.
Import Params Poly Reduce Ntt.

(** Congruence modulo [Q]. *)
Definition cong (a b : Z) : Prop := a mod Q = b mod Q.

(** The inverse of R = 2^32 modulo [Q]. *)
Definition RINV : Z := 8265825.

(** [x] lies in [[-B, B]]. *)
Definition within (B x : Z) : Prop := - B <= x <= B.

(** The transform of a block of length [2^l] whose first butterfly pass
    uses [zetas idx]: one pass over the block, then the transforms of its
    two halves with entries [2 * idx] and [2 * idx + 1]. *)
Fixpoint ntt_rec (l idx : nat) (a : list Z) : list Z :=
  match l with
  | O => a
  | S l' =>
      let b := ntt_block (zetas idx) (2 ^ l') a in
      ntt_rec l' (2 * idx) (firstn (2 ^ l') b)
      ++ ntt_rec l' (S (2 * idx)) (skipn (2 ^ l') b)
  end.

(** The inverse transform of a block of length [2^l]: the inverse transforms
    of its two halves, then one pass with [- zetas idx]. *)
Fixpoint invntt_rec (l idx : nat) (x : list Z) : list Z :=
  match l with
  | O => x
  | S l' =>
      invntt_block (wrap32 (- zetas idx)) (2 ^ l')
        (invntt_rec l' (S (2 * idx)) (firstn (2 ^ l') x)
         ++ invntt_rec l' (2 * idx) (skipn (2 ^ l') x))
  end.

(** [n] consecutive blocks of length [2^l], transformed with consecutive
    table entries. *)
Fixpoint ntt_blocks (l idx n : nat) (a : list Z) : list Z :=
  match n with
  | O => []
  | S n' =>
      ntt_rec l idx (firstn (2 ^ l) a)
      ++ ntt_blocks l (S idx) n' (skipn (2 ^ l) a)
  end.

Fixpoint invntt_blocks (l idx n : nat) (x : list Z) : list Z :=
  match n with
  | O => []
  | S n' =>
      invntt_rec l idx (firstn (2 ^ l) x)
      ++ invntt_blocks l (pred idx) n' (skipn (2 ^ l) x)
  end.

(** Entry [i] of level [e] (2^e blocks, [2^e <= i < 2 * 2^e]) is used by the
    forward transform on the block on which the inverse transform uses
    entry [j] with [i + j = 3 * 2^e - 1]. *)
Definition paired (e i j : nat) : Prop :=
  (2 ^ e <= i < 2 * 2 ^ e)%nat /\ (i + j = 3 * 2 ^ e - 1)%nat.

(** [zetas i * (- zetas j)] is R^2 modulo [Q]: a Montgomery multiplication
    by one undoes a Montgomery multiplication by the other. *)
Definition zetas_inverse (i j : nat) : bool :=
  (zetas i * (- zetas j) * RINV * RINV) mod Q =? 1.

End NttRec.

(** ** Rounding *)

Module Rounding.
Import Params Poly Reduce.

(** Modelled from the spec: [power2round] is defined in [rounding.c], which
    is not among the sources; [poly.h] declares only [poly_power2round].
    The spec (4.D) fixes its result, a = a1 * 2^D + a0 with a0 in
    (-2^(D-1), 2^(D-1)], which leaves one pair (a1, a0) for every a: a1 is a
    shifted right by D bits after adding 2^(D-1) - 1, and a0 the rest. *)
Definition power2round (a : Z) : Z * Z :=
  let a1 := Z.shiftr (wrap32 (a + Z.shiftl 1 (D - 1) - 1)) D in
  let a0 := wrap32 (a - wrap32 (Z.shiftl a1 D)) in
  (a1, a0).

(** Modelled from the spec: [poly_power2round(a1, a0, a)] is declared in
    [poly.h] and defined in [poly.c], which is not among the sources.  The
    spec (2, 4.D) describes it as [power2round] applied to each of the N
    coefficients. *)
Definition poly_power2round (a : poly) : poly * poly :=
  (mkpoly (map (fun c => fst (power2round c)) (coeffs a)),
   mkpoly (map (fun c => snd (power2round c)) (coeffs a))).

End Rounding.

(** ** Packing *)

Module Packing.
Import Params Poly.

(** The [w] low bits of [v], least significant first. *)
Fixpoint bits_of (w : nat) (v : Z) : list bool :=
  match w with
  | O => []
  | S w' => Z.odd v :: bits_of w' (Z.div2 v)
  end.

(** The number with binary digits [bs], least significant first. *)
Fixpoint value_of (bs : list bool) : Z :=
  match bs with
  | [] => 0
  | b :: bs' => Z.b2z b + 2 * value_of bs'
  end.

(** The first [n] consecutive groups of [w] elements of [l]. *)
Fixpoint groups {A : Type} (w n : nat) (l : list A) : list (list A) :=
  match n with
  | O => []
  | S n' => firstn w l :: groups w n' (skipn w l)
  end.

(** Modelled from the spec: the packing routines are defined in [poly.c],
    which is not among the sources; [poly.h] declares them.  The spec (4.F)
    gives every structured range a fixed number of bits per coefficient:
    the values are written one after the other with [w] bits each, least
    significant bit first, and the bit string is cut into bytes. *)
Definition pack_bits (w : nat) (vals : list Z) : list Z :=
  let bits := flat_map (bits_of w) vals in
  map value_of (groups 8 (length bits / 8) bits).

(** Modelled from the spec (4.F): the first [n] values of [w] bits in the
    bit string of [bytes], each byte giving its 8 bits, least significant
    first. *)
Definition unpack_bits (w n : nat) (bytes : list Z) : list Z :=
  map value_of (groups w n (flat_map (bits_of 8) bytes)).

(** Bits per coefficient (table of 4.F). *)
Definition T1_BITS : nat := 10.
Definition T0_BITS : nat := 13.

(** [#if ETA == 2 ... #elif ETA == 4]. *)
Definition ETA_BITS (md : mode) : nat :=
  if ETA md =? 2 then 3 else 4.

(** [#if GAMMA1 == (1 << 17) ... #elif GAMMA1 == (1 << 19)]. *)
Definition Z_BITS (md : mode) : nat :=
  if GAMMA1 md =? Z.shiftl 1 17 then 18 else 20.

(** Modelled from the spec: [polyt1_pack], declared in [poly.h]; t1 has
    coefficients in [0, 2^10), stored as they are in 10 bits. *)
Definition polyt1_pack (a : poly) : list Z := pack_bits T1_BITS (coeffs a).

(** Modelled from the spec: [polyt1_unpack], declared in [poly.h]; reads N
    values of 10 bits. *)
Definition polyt1_unpack (r : list Z) : poly :=
  mkpoly (unpack_bits T1_BITS (Z.to_nat N) r).

(** Modelled from the spec: [polyt0_pack], declared in [poly.h]; t0 has
    coefficients in (-2^(D-1), 2^(D-1)], stored in 13 bits as the distance
    below the upper end of the range. *)
Definition polyt0_pack (a : poly) : list Z :=
  pack_bits T0_BITS (map (fun c => Z.shiftl 1 (D - 1) - c) (coeffs a)).

(** Modelled from the spec: [polyt0_unpack], declared in [poly.h]; reads N
    values of 13 bits and maps each back into the range of t0. *)
Definition polyt0_unpack (r : list Z) : poly :=
  mkpoly (map (fun t => Z.shiftl 1 (D - 1) - t)
              (unpack_bits T0_BITS (Z.to_nat N) r)).

(** Modelled from the spec: [polyeta_pack], declared in [poly.h];
    coefficients in [-ETA, ETA], stored biased by ETA in 3 bits (ETA = 2) or
    4 bits (ETA = 4). *)
Definition polyeta_pack (md : mode) (a : poly) : list Z :=
  pack_bits (ETA_BITS md) (map (fun c => ETA md - c) (coeffs a)).

(** Modelled from the spec: [polyeta_unpack], declared in [poly.h]; reads N
    values of 3 or 4 bits and removes the bias. *)
Definition polyeta_unpack (md : mode) (r : list Z) : poly :=
  mkpoly (map (fun t => ETA md - t)
              (unpack_bits (ETA_BITS md) (Z.to_nat N) r)).

(** Modelled from the spec: [polyz_pack], declared in [poly.h];
    coefficients in (-GAMMA1, GAMMA1], stored as GAMMA1 - c in 18 bits
    (GAMMA1 = 2^17) or 20 bits (GAMMA1 = 2^19). *)
Definition polyz_pack (md : mode) (a : poly) : list Z :=
  pack_bits (Z_BITS md) (map (fun c => GAMMA1 md - c) (coeffs a)).

(** Modelled from the spec: [polyz_unpack], declared in [poly.h]; reads N
    values of 18 or 20 bits and maps each x to GAMMA1 - x. *)
Definition polyz_unpack (md : mode) (r : list Z) : poly :=
  mkpoly (map (fun t => GAMMA1 md - t)
              (unpack_bits (Z_BITS md) (Z.to_nat N) r)).

End Packing.

(** * Properties *)

(** ** Properties of the parameter sets *)

Module ParamsTheory.
Import Params.

Lemma pow_mod_spec b e q : pow_mod b e q = (b ^ Z.of_nat e) mod q.
Proof.
  induction e as [|e IH].
  - reflexivity.
  - cbn [pow_mod]. rewrite IH, Nat2Z.inj_succ, Z.pow_succ_r by lia.
    apply Zmult_mod_idemp_r.
Qed.

(** C6.  In each of the three parameter sets the rejection slack [BETA] is
    the product [TAU * ETA]: 78 = 39 * 2, 196 = 49 * 4 and 120 = 60 * 2. *)
Theorem BETA_is_TAU_times_ETA :
  (forall md : mode, BETA md = TAU md * ETA md)
  /\ (BETA Mode2, TAU Mode2, ETA Mode2) = (78, 39, 2)
  /\ (BETA Mode3, TAU Mode3, ETA Mode3) = (196, 49, 4)
  /\ (BETA Mode5, TAU Mode5, ETA Mode5) = (120, 60, 2).
Proof.
  split; [intros []; reflexivity|]. repeat split.
Qed.

(** No power of [ROOT_OF_UNITY] below the 512th is 1 modulo [Q], checked on
    the 511 exponents. *)
Lemma root_of_unity_small_powers :
  forallb (fun e => negb (pow_mod ROOT_OF_UNITY e Q =? 1)) (seq 1 511) = true.
Proof. vm_compute. reflexivity. Qed.

(** C7.  [ROOT_OF_UNITY] = 1753 is a primitive 2N-th root of unity modulo
    [Q]: its 512th power is 1, its 256th power is -1, and no smaller
    positive power is 1. *)
Theorem ROOT_OF_UNITY_primitive :
  ROOT_OF_UNITY ^ (2 * N) mod Q = 1
  /\ ROOT_OF_UNITY ^ N mod Q = (-1) mod Q
  /\ (forall k, 0 < k < 2 * N -> ROOT_OF_UNITY ^ k mod Q <> 1).
Proof.
  split; [|split].
  - change (2 * N) with (Z.of_nat 512). rewrite <- pow_mod_spec.
    vm_compute. reflexivity.
  - change N with (Z.of_nat 256). rewrite <- pow_mod_spec.
    vm_compute. reflexivity.
  - intros k Hk. change (2 * N) with 512 in Hk.
    pose proof root_of_unity_small_powers as H.
    rewrite forallb_forall in H.
    specialize (H (Z.to_nat k)).
    rewrite <- (Z2Nat.id k) by lia. rewrite <- pow_mod_spec.
    assert (Hin : In (Z.to_nat k) (seq 1 511)) by (apply in_seq; lia).
    apply H in Hin. apply negb_true_iff in Hin. now apply Z.eqb_neq.
Qed.

(** X1.  The key and signature sizes [params.h] derives for modes 2, 3
    and 5: public key, secret key and signature bytes. *)
Theorem crypto_sizes :
  map (fun md => (CRYPTO_PUBLICKEYBYTES md, CRYPTO_SECRETKEYBYTES md, CRYPTO_BYTES md))
      all_modes
  = [ (1312, Some 2544, Some 2420);
      (1952, Some 4016, Some 3293);
      (2592, Some 4880, Some 4595) ].
Proof. reflexivity. Qed.

Lemma no_divisor_upto_spec n bound d :
  no_divisor_upto n bound = true -> 2 <= d <= Z.of_nat bound -> ~ (d | n).
Proof.
  intros H Hd Hdiv. unfold no_divisor_upto in H. rewrite forallb_forall in H.
  specialize (H (Z.to_nat d) ltac:(apply in_seq; lia)).
  rewrite Z2Nat.id in H by lia.
  apply negb_true_iff, Z.eqb_neq in H. apply H.
  apply Z.mod_divide; [lia | exact Hdiv].
Qed.

(** A number above 1 with no divisor d, 2 <= d, d * d <= n, is prime. *)
Lemma prime_by_trial_division n bound :
  1 < n -> n < (Z.of_nat bound + 1) * (Z.of_nat bound + 1) ->
  no_divisor_upto n bound = true -> prime n.
Proof.
  intros Hn Hb Hnd. apply prime_intro; [exact Hn|].
  intros m Hm. constructor; try apply Z.divide_1_l.
  intros x Hxm Hxn.
  (* g = |x| divides m and n *)
  assert (Hgm : (Z.abs x | m)) by now apply Z.divide_abs_l.
  assert (Hgn : (Z.abs x | n)) by now apply Z.divide_abs_l.
  pose proof (Z.abs_nonneg x) as Hg0.
  set (g := Z.abs x) in *.
  assert (Hgpos : 0 < g).
  { destruct (Z.eq_dec g 0) as [E|]; [|lia].
    rewrite E in Hgm. destruct Hgm as [c Hc]. lia. }
  assert (Hgle : g <= m) by (apply Z.divide_pos_le; [lia | exact Hgm]).
  destruct (Z.eq_dec g 1) as [E1|Hg1].
  { apply Z.divide_abs_l. fold g. rewrite E1. apply Z.divide_refl. }
  exfalso.
  destruct Hgn as [c Hc].
  assert (Hc2 : 2 <= c) by nia.
  assert (Hg2 : 2 <= g) by lia.
  destruct (Z_le_gt_dec g (Z.of_nat bound)) as [Hle|Hgt].
  - apply (no_divisor_upto_spec n bound g Hnd); [lia|]. now exists c.
  - apply (no_divisor_upto_spec n bound c Hnd); [nia|]. exists g. lia.
Qed.

(** X4.  [Q] = 8380417 = 2^23 - 2^13 + 1 is prime, and 2N = 512 divides
    [Q - 1]. *)
Theorem Q_prime : prime Q /\ Q = 2 ^ 23 - 2 ^ 13 + 1 /\ (2 * N | Q - 1).
Proof.
  split; [|split].
  - apply (prime_by_trial_division Q 2895).
    + reflexivity.
    + reflexivity.
    + vm_compute. reflexivity.
  - reflexivity.
  - exists 16368. reflexivity.
Qed.

(** X5.  The integer divisions that define [GAMMA2] are exact: [GAMMA2] is
    95232 in mode 2 and 261888 in modes 3 and 5, and [2 * GAMMA2] divides
    [Q - 1] in every mode. *)
Theorem GAMMA2_exact :
  map (fun md => (GAMMA2 md, (Q - 1) mod (2 * GAMMA2 md), (Q - 1) / (2 * GAMMA2 md)))
      all_modes
  = [(95232, 0, 44); (261888, 0, 16); (261888, 0, 16)].
Proof. reflexivity. Qed.

(** X7.  Every packed size of [params.h] is N times the number of bits that
    number the values of the packed range, in bytes: 10 bits for t1, 13 for
    t0, 3 or 4 for eta, 18 or 20 for z and 6 or 4 for w1. *)
Theorem packed_bytes_bits :
  8 * POLYT1_PACKEDBYTES = N * Z.log2_up ((Q - 1) / 2 ^ D + 1)
  /\ 8 * POLYT0_PACKEDBYTES = N * Z.log2_up (2 ^ D)
  /\ forall md,
       option_map (Z.mul 8) (POLYETA_PACKEDBYTES md)
         = Some (N * Z.log2_up (2 * ETA md + 1))
       /\ option_map (Z.mul 8) (POLYZ_PACKEDBYTES md)
         = Some (N * Z.log2_up (2 * GAMMA1 md))
       /\ option_map (Z.mul 8) (POLYW1_PACKEDBYTES md)
         = Some (N * Z.log2_up ((Q - 1) / (2 * GAMMA2 md))).
Proof.
  split; [reflexivity|]. split; [reflexivity|].
  intros []; repeat split.
Qed.

End ParamsTheory.

(** ** Properties of the benchmark harness *)

Module HarnessTheory.
Import Params Harness.

Lemma stdout_print c st : stdout (print c st) = stdout st ++ [c].
Proof. reflexivity. Qed.

(** [memcmp] is zero exactly when the first [n] bytes agree. *)
Lemma memcmp_eq_0_iff n : forall a b,
  (n <= length a)%nat -> (n <= length b)%nat ->
  memcmp a b n = 0 <-> firstn n a = firstn n b.
Proof.
  induction n as [|n IH]; intros a b Ha Hb;
    [destruct a, b; cbn; split; reflexivity|].
  destruct a as [|x a], b as [|y b]; cbn [length] in *; try lia.
  cbn [memcmp firstn].
  destruct (Z.eqb_spec x y) as [->|Hne].
  - rewrite IH by lia. split; [now intros -> | now intros [=]].
  - split; [lia | intros [=]; contradiction].
Qed.

(** The three ways out of the loop body. *)
Lemma loop_body_keypair_fail it st :
  keypair_ret it <> 0 -> loop_body it st = (st, Some 1).
Proof.
  intros H. unfold loop_body.
  destruct (keypair_ret it =? 0) eqn:E; [apply Z.eqb_eq in E; contradiction|].
  reflexivity.
Qed.

Lemma loop_body_ok it st :
  keypair_ret it = 0 -> roundtrip_ok it -> snd (loop_body it st) = None.
Proof.
  intros Hk [Hl Hm]. unfold loop_body. rewrite Hk, Hl, Hm. reflexivity.
Qed.

Lemma loop_body_mismatch it st :
  keypair_ret it = 0 ->
  mlen1 it <> MLEN \/ memcmp (m it) (m1 it) (Z.to_nat MLEN) <> 0 ->
  exists st' c,
    loop_body it st = (st', Some 0)
    /\ failure_message c
    /\ exists pre, stdout st' = pre ++ [c].
Proof.
  intros Hk Hbad. unfold loop_body. rewrite Hk. cbn [Z.eqb negb].
  destruct (MLEN =? mlen1 it) eqn:El; cbn [negb].
  - apply Z.eqb_eq in El.
    destruct (memcmp (m it) (m1 it) (Z.to_nat MLEN) =? 0) eqn:Em; cbn [negb].
    + apply Z.eqb_eq in Em. destruct Hbad; congruence.
    + eexists _, _. split; [reflexivity|]. split; [now right|].
      eexists. apply stdout_print.
  - eexists _, _. split; [reflexivity|]. split; [now left|].
    eexists. apply stdout_print.
Qed.

Lemma loop_body_status it st s :
  snd (loop_body it st) = Some s -> s = 1 \/ s = 0.
Proof.
  unfold loop_body.
  destruct (keypair_ret it =? 0); cbn [Z.eqb negb]; [|intros [= <-]; now left].
  destruct (MLEN =? mlen1 it); cbn [negb snd]; [|intros [= <-]; now right].
  destruct (memcmp _ _ _ =? 0); cbn [negb snd]; [discriminate|].
  intros [= <-]; now right.
Qed.

Lemma loop_body_status_1 it st :
  snd (loop_body it st) = Some 1 -> keypair_ret it <> 0.
Proof.
  unfold loop_body. intros H Hk. rewrite Hk in H. cbn [Z.eqb negb] in H.
  destruct (MLEN =? mlen1 it); cbn [negb snd] in H; [|discriminate].
  destruct (memcmp _ _ _ =? 0); cbn [negb snd] in H; discriminate.
Qed.

Lemma loop_body_none it st :
  snd (loop_body it st) = None -> keypair_ret it = 0 /\ roundtrip_ok it.
Proof.
  unfold loop_body, roundtrip_ok.
  destruct (keypair_ret it =? 0) eqn:Ek; cbn [Z.eqb negb]; [|discriminate].
  apply Z.eqb_eq in Ek.
  destruct (MLEN =? mlen1 it) eqn:El; cbn [negb snd]; [|discriminate].
  destruct (memcmp _ _ _ =? 0) eqn:Em; cbn [negb snd]; [|discriminate].
  apply Z.eqb_eq in El, Em. auto.
Qed.

Lemma passes_step w i k :
  keypair_ret (w i) = 0 -> roundtrip_ok (w i) ->
  passes w (S i) k -> passes w i (S k).
Proof.
  intros Hk Hr Hp [|j] Hj.
  - rewrite Nat.add_0_r. auto.
  - replace (i + S j)%nat with (S i + j)%nat by lia. apply Hp. lia.
Qed.

Lemma passes_tail w i k : passes w i (S k) -> passes w (S i) k.
Proof.
  intros Hp j Hj. replace (S i + j)%nat with (i + S j)%nat by lia.
  apply Hp. lia.
Qed.

Lemma passes_head w i k :
  passes w i (S k) -> keypair_ret (w i) = 0 /\ roundtrip_ok (w i).
Proof.
  intros Hp. specialize (Hp O ltac:(lia)). now rewrite Nat.add_0_r in Hp.
Qed.

(** A loop whose iterations all pass runs to the end. *)
Lemma run_loop_passes w n : forall i st,
  passes w i n -> snd (run_loop w n i st) = None.
Proof.
  induction n as [|n IH]; intros i st Hp; [reflexivity|].
  cbn [run_loop].
  destruct (passes_head _ _ _ Hp) as [Hk Hr].
  pose proof (loop_body_ok (w i) st Hk Hr) as Hb.
  destruct (loop_body (w i) st) as [st' [s|]]; [discriminate|].
  apply IH. now apply passes_tail.
Qed.

(** The loop stops at the first iteration that does not pass, with that
    iteration's way out. *)
Lemma run_loop_split w k : forall n i st,
  (k < n)%nat -> passes w i k ->
  run_loop w n i st =
    match loop_body (w (i + k)%nat) (fst (run_loop w k i st)) with
    | (st', Some status) => (st', Some status)
    | (st', None) => run_loop w (n - S k) (S (i + k)) st'
    end.
Proof.
  induction k as [|k IH]; intros n i st Hlt Hp.
  - destruct n as [|n]; [lia|]. cbn [run_loop fst Nat.sub].
    rewrite Nat.add_0_r, Nat.sub_0_r. reflexivity.
  - destruct n as [|n]; [lia|]. cbn [run_loop].
    destruct (passes_head _ _ _ Hp) as [Hk Hr].
    pose proof (loop_body_ok (w i) st Hk Hr) as Hb.
    destruct (loop_body (w i) st) as [st1 [s|]]; [discriminate|].
    rewrite (IH n (S i) st1) by (try lia; now apply passes_tail).
    replace (S i + k)%nat with (i + S k)%nat by lia.
    reflexivity.
Qed.

Lemma run_loop_status_1 w n : forall i st st',
  run_loop w n i st = (st', Some 1) ->
  exists k, (k < n)%nat /\ passes w i k /\ keypair_ret (w (i + k)%nat) <> 0.
Proof.
  induction n as [|n IH]; intros i st st' H; [discriminate|].
  cbn [run_loop] in H.
  destruct (loop_body (w i) st) as [st1 [s|]] eqn:Eb.
  - injection H as _ ->. exists O. rewrite Nat.add_0_r.
    split; [lia|]. split; [intros j Hj; lia|].
    apply (loop_body_status_1 (w i) st). now rewrite Eb.
  - destruct (loop_body_none (w i) st) as [Hk Hr]; [now rewrite Eb|].
    destruct (IH _ _ _ H) as (k & Hlt & Hp & Hbad).
    exists (S k). split; [lia|]. split; [now apply passes_step|].
    now replace (i + S k)%nat with (S i + k)%nat by lia.
Qed.

Lemma reaches_passes w i : reaches w i <-> passes w 0 i.
Proof. reflexivity. Qed.

(** C10.  In the harness a failed round trip (recovered length different
    from [MLEN], or recovered bytes different from the message) in an
    iteration that is reached and whose key generation returned 0 ends
    [main] with a failure message as last output and exit status 0, the
    status of a run in which every iteration passes; [main] returns 1
    exactly when some reached iteration's [crypto_sign_keypair] returned a
    nonzero value. *)
Theorem main_exit_status (w : nat -> iteration) :
  (forall i, (i < Z.to_nat NRUNS)%nat -> reaches w i ->
     keypair_ret (w i) = 0 ->
     mlen1 (w i) <> MLEN \/ memcmp (m (w i)) (m1 (w i)) (Z.to_nat MLEN) <> 0 ->
     exit_status w = 0
     /\ exists pre c, output w = pre ++ [c] /\ failure_message c)
  /\ (reaches w (Z.to_nat NRUNS) -> exit_status w = 0)
  /\ (exit_status w = 1 <->
      exists i, (i < Z.to_nat NRUNS)%nat /\ reaches w i /\ keypair_ret (w i) <> 0).
Proof.
  unfold exit_status, output, main.
  set (st0 := {| cycles0 := []; cycles1 := []; cycles2 := [];
                 stdout := [Printf "hello world!\n" []] |}).
  split; [|split].
  - intros i Hi Hr Hk Hbad.
    rewrite (run_loop_split w i _ 0%nat st0 Hi Hr). cbn [Nat.add].
    destruct (loop_body_mismatch (w i) (fst (run_loop w i 0 st0)) Hk Hbad)
      as (st' & c & -> & Hc & pre & Hpre).
    cbn [fst snd]. split; [reflexivity|]. now exists pre, c.
  - intros Hr. pose proof (run_loop_passes w _ 0%nat st0 Hr) as Hn.
    destruct (run_loop w (Z.to_nat NRUNS) 0 st0) as [st' [s|]]; [discriminate|].
    reflexivity.
  - split.
    + intros H.
      destruct (run_loop w (Z.to_nat NRUNS) 0 st0) as [st' [s|]] eqn:E;
        cbn [fst] in H; [|discriminate].
      subst s. destruct (run_loop_status_1 _ _ _ _ _ E) as (k & Hlt & Hp & Hbad).
      now exists k.
    + intros (i & Hi & Hr & Hbad).
      rewrite (run_loop_split w i _ 0%nat st0 Hi Hr). cbn [Nat.add].
      now rewrite loop_body_keypair_fail.
Qed.

(** C9.  The buffer [sm] holds [200 + CRYPTO_BYTES] bytes, while the signed
    message [crypto_sign] stores for a message of [MLEN] = 256 bytes has
    [CRYPTO_BYTES + 256] bytes: in every mode the signed message is 56 bytes
    longer than the buffer (2676 against 2620 bytes for Dilithium-2). *)
Theorem sm_shorter_than_signed_message :
  (forall md : mode, exists crypto_bytes,
      CRYPTO_BYTES md = Some crypto_bytes
      /\ sizeof_sm md = Some (200 + crypto_bytes)
      /\ signed_message_length md MLEN = Some (crypto_bytes + 256)
      /\ (crypto_bytes + 256) - (200 + crypto_bytes) = 56)
  /\ sizeof_sm Mode2 = Some 2620
  /\ signed_message_length Mode2 MLEN = Some 2676.
Proof.
  split; [|split; reflexivity].
  intros []; eexists; (split; [reflexivity|]); repeat split.
Qed.

(** Sample runs of the harness. *)
Example main_rejected_run :
  main (fun i => if Nat.eqb i 2 then rejected_iteration else passing_iteration)
  = (0, [ Printf "hello world!\n" [];
          Printf "crypto_sign_open returned <%d>\n" [ArgInt (-1)];
          Printf "message fail\n" [] ]).
Proof. vm_compute. reflexivity. Qed.

Example main_keygen_failed_run :
  main (fun i => if Nat.eqb i 2 then keygen_failed_iteration else passing_iteration)
  = (1, [ Printf "hello world!\n" [] ]).
Proof. vm_compute. reflexivity. Qed.

Example main_passing_run :
  exit_status (fun _ => passing_iteration) = 0
  /\ nth_error (output (fun _ => passing_iteration)) 1
     = Some (Printf "Signature tests PASSED... \n\n" [])
  /\ nth_error (output (fun _ => passing_iteration)) 4
     = Some (Printf "median:  %lu " [ArgInt 100]).
Proof. vm_compute. repeat split. Qed.

Lemma loop_body_same_checks a b st st' :
  same_checks a b -> snd (loop_body a st) = snd (loop_body b st').
Proof.
  intros (Hk & Hl & Hm & Hm1). unfold loop_body.
  rewrite Hk, Hl, Hm, Hm1.
  destruct (keypair_ret b =? 0); cbn [Z.eqb negb snd]; [|reflexivity].
  destruct (MLEN =? mlen1 b); cbn [negb snd]; [|reflexivity].
  destruct (memcmp (m b) (m1 b) (Z.to_nat MLEN) =? 0); reflexivity.
Qed.

Lemma run_loop_same_checks w w' n : forall i st st',
  (forall j, same_checks (w j) (w' j)) ->
  snd (run_loop w n i st) = snd (run_loop w' n i st').
Proof.
  induction n as [|n IH]; intros i st st' H; [reflexivity|].
  cbn [run_loop].
  pose proof (loop_body_same_checks (w i) (w' i) st st' (H i)) as Hb.
  destruct (loop_body (w i) st) as [s1 [r1|]],
           (loop_body (w' i) st') as [s2 [r2|]]; cbn [snd] in *;
    try discriminate; [exact Hb|].
  now apply IH.
Qed.

(** X2.  The exit status of [main] does not depend on the values returned
    by [crypto_sign] and [crypto_sign_open] (nor on the timer readings):
    nonzero values are printed and the run goes on. *)
Theorem exit_status_ignores_sign_results (w w' : nat -> iteration) :
  (forall i, same_checks (w i) (w' i)) -> exit_status w = exit_status w'.
Proof.
  intros H. unfold exit_status, main.
  set (st0 := {| cycles0 := []; cycles1 := []; cycles2 := [];
                 stdout := [Printf "hello world!\n" []] |}).
  pose proof (run_loop_same_checks w w' (Z.to_nat NRUNS) 0%nat st0 st0 H) as E.
  destruct (run_loop w (Z.to_nat NRUNS) 0 st0) as [s1 [r1|]],
           (run_loop w' (Z.to_nat NRUNS) 0 st0) as [s2 [r2|]]; cbn [snd fst] in *;
    congruence.
Qed.


(** The theorem at a run whose every [crypto_sign_open] reports a failure
    while the message is recovered. *)
Lemma exit_status_ignores_sign_results_witness :
  exit_status (fun _ => passing_iteration)
  = exit_status (fun _ => unreported_iteration).
Proof.
  apply (exit_status_ignores_sign_results
           (fun _ => passing_iteration) (fun _ => unreported_iteration)).
  intros i. repeat split.
Defined.

Lemma cmp_llu_le x y : (cmp_llu x y <=? 0) = (x <=? y).
Proof.
  unfold cmp_llu.
  destruct (Z.ltb_spec x y), (Z.ltb_spec y x), (Z.leb_spec x y);
    try reflexivity; lia.
Qed.

Lemma qsort_insert_perm x l : Permutation (qsort_insert x l) (x :: l).
Proof.
  induction l as [|y l IH]; cbn [qsort_insert]; [reflexivity|].
  destruct (cmp_llu x y <=? 0); [reflexivity|].
  rewrite IH. apply perm_swap.
Qed.

Lemma qsort_perm l : Permutation (qsort l) l.
Proof.
  induction l as [|x l IH]; [reflexivity|].
  unfold qsort in *. cbn [fold_right]. rewrite qsort_insert_perm.
  now constructor.
Qed.

Lemma qsort_insert_sorted x l :
  StronglySorted Z.le l -> StronglySorted Z.le (qsort_insert x l).
Proof.
  induction 1 as [|y l Hs IH Hy]; cbn [qsort_insert].
  - repeat constructor.
  - rewrite cmp_llu_le. destruct (Z.leb_spec x y) as [Hle|Hgt].
    + constructor; [now constructor|].
      constructor; [exact Hle|].
      eapply Forall_impl; [|exact Hy]. intros z Hz. cbv beta in *. lia.
    + constructor; [exact IH|].
      rewrite (qsort_insert_perm x l). constructor; [lia | exact Hy].
Qed.

Lemma qsort_sorted l : StronglySorted Z.le (qsort l).
Proof.
  induction l as [|x l IH]; [constructor|].
  unfold qsort in *. cbn [fold_right]. now apply qsort_insert_sorted.
Qed.

Lemma sorted_last l z :
  StronglySorted Z.le (l ++ [z]) -> Forall (fun x => x <= z) l.
Proof.
  induction l as [|y l IH]; intros H; [constructor|].
  cbn [app] in H. inversion H as [|? ? Hs Hy]; subst.
  constructor; [|now apply IH].
  rewrite Forall_app in Hy. destruct Hy as [_ Hz]. now inversion Hz.
Qed.

Lemma firstn_app_exact_length {A : Type} (l l' : list A) :
  firstn (length l) (l ++ l') = l.
Proof.
  rewrite firstn_app, Nat.sub_diag, firstn_all. cbn [firstn]. apply app_nil_r.
Qed.

Lemma sum_list_app l l' : sum_list (l ++ l') = sum_list l + sum_list l'.
Proof.
  induction l as [|x l IH]; cbn [app sum_list fold_right] in *; [reflexivity|].
  fold (sum_list (l ++ l')). fold (sum_list l). lia.
Qed.

Lemma sum_list_perm l l' : Permutation l l' -> sum_list l = sum_list l'.
Proof.
  unfold sum_list.
  induction 1 as [|x l l' _ IH|x y l|l l' l'' _ IH1 _ IH2];
    cbn [fold_right]; lia.
Qed.

Lemma fold_left_add_mod M l : forall acc,
  fold_left (fun acc x => (acc + x) mod M) l acc mod M = (acc + sum_list l) mod M.
Proof.
  induction l as [|x l IH]; intros acc; cbn [fold_left sum_list fold_right].
  - now rewrite Z.add_0_r.
  - rewrite IH. fold (sum_list l).
    rewrite Zplus_mod_idemp_l. f_equal. lia.
Qed.

Lemma sum_list_bound B l :
  Forall (fun x => 0 <= x < B) l ->
  0 <= sum_list l <= Z.of_nat (length l) * (B - 1).
Proof.
  induction 1 as [|x l Hx _ IH]; cbn [sum_list fold_right length]; [lia|].
  fold (sum_list l). lia.
Qed.

Lemma fold_left_add_mod_small M l acc :
  0 <= acc < M ->
  fold_left (fun acc x => (acc + x) mod M) l acc = (acc + sum_list l) mod M.
Proof.
  intros Hacc. rewrite <- fold_left_add_mod.
  symmetry. apply Z.mod_small.
  revert acc Hacc. induction l as [|x l IH]; intros acc Hacc; [exact Hacc|].
  cbn [fold_left]. apply IH. apply Z.mod_pos_bound. lia.
Qed.

Lemma average_prefix (l rest : list Z) :
  (1 <= length l)%nat -> Z.of_nat (length l) < ULONG_MOD ->
  Forall (fun x => 0 <= x < ULONG_MOD) l ->
  average (l ++ rest) (length l) = sum_list l / Z.of_nat (length l).
Proof.
  intros Hn Hlen Hb. unfold average.
  rewrite firstn_app_exact_length.
  rewrite fold_left_add_mod_small by (unfold ULLONG_MOD; lia).
  rewrite Z.add_0_l.
  pose proof (sum_list_bound _ _ Hb) as Hsum.
  unfold ULONG_MOD, ULLONG_MOD in *.
  rewrite (Z.mod_small (sum_list l)) by nia.
  apply Z.mod_small. split; [apply Z.div_pos; lia|].
  apply Z.div_lt_upper_bound; nia.
Qed.

(** X3.  [print_results] prints as average the mean of all measurements but
    a largest one: [median] has sorted the array before [average] is called
    on its first [tlen - 1] entries. *)
Theorem print_results_average (s : string) (t : list Z) :
  (2 <= length t)%nat -> Z.of_nat (length t) <= ULONG_MOD ->
  Forall (fun x => 0 <= x < ULONG_MOD) t ->
  exists mx,
    In mx t /\ Forall (fun x => x <= mx) t
    /\ nth_error (print_results s t (length t)) 5
       = Some (Printf "average: %lu "
                 [ArgInt ((sum_list t - mx) / (Z.of_nat (length t) - 1))]).
Proof.
  intros Hn Hlen Ht.
  pose proof (qsort_perm t) as Hp.
  pose proof (qsort_sorted t) as Hs.
  assert (Hq : qsort t <> []).
  { intros E. rewrite E in Hp. apply Permutation_nil in Hp. subst t.
    cbn in Hn. lia. }
  destruct (exists_last Hq) as (l' & mx & E).
  rewrite E in Hp, Hs.
  assert (Hl' : S (length l') = length t).
  { apply Permutation_length in Hp. rewrite length_app in Hp. cbn in Hp. lia. }
  pose proof (sorted_last _ _ Hs) as Hmax.
  assert (Hb : Forall (fun x => 0 <= x < ULONG_MOD) l').
  { apply (Permutation_Forall (Permutation_sym Hp)) in Ht.
    apply Forall_app in Ht. tauto. }
  assert (Es : sum_list l' = sum_list t - mx).
  { rewrite <- (sum_list_perm _ _ Hp), sum_list_app.
    cbn [sum_list fold_right]. lia. }
  assert (Ea : average (qsort t) (length t - 1)
               = (sum_list t - mx) / (Z.of_nat (length t) - 1)).
  { rewrite E. replace (length t - 1)%nat with (length l') by lia.
    rewrite average_prefix by (try assumption; lia).
    rewrite Es. f_equal. lia. }
  exists mx. split; [|split].
  - apply (Permutation_in _ Hp). apply in_or_app. right. now left.
  - apply (Permutation_Forall Hp). apply Forall_app. split; [exact Hmax|].
    constructor; [lia | constructor].
  - unfold print_results, median.
    destruct (Nat.eqb (length t mod 2) 0); cbn [nth_error]; now rewrite Ea.
Qed.

(** The theorem at four measurements. *)
Lemma print_results_average_witness :
  exists mx,
    In mx [5; 1; 9; 3] /\ Forall (fun x => x <= mx) [5; 1; 9; 3]
    /\ nth_error (print_results "dilithium sign: " [5; 1; 9; 3] 4) 5
       = Some (Printf "average: %lu "
                 [ArgInt ((sum_list [5; 1; 9; 3] - mx) / (Z.of_nat 4 - 1))]).
Proof.
  apply (print_results_average "dilithium sign: " [5; 1; 9; 3]).
  - cbn. lia.
  - cbn. unfold ULONG_MOD. lia.
  - unfold ULONG_MOD. repeat constructor; lia.
Defined.

Example print_results_sample :
  print_results "dilithium sign: " [5; 1; 9; 3] 4
  = [ Printf "%s" [ArgStr "dilithium sign: "]; Printf "\n" [];
      Printf "median:  %lu " [ArgInt 4]; Printf "cycles" []; Printf "\n" [];
      Printf "average: %lu " [ArgInt 3]; Printf "cycles" []; Printf "\n" [];
      Printf "\n" [] ].
Proof. vm_compute. reflexivity. Qed.

Lemma loop_body_stdout it st :
  Forall loop_output (stdout st) ->
  Forall loop_output (stdout (fst (loop_body it st))).
Proof.
  intros H. unfold loop_body.
  assert (Hp : forall c st', Forall loop_output (stdout st') ->
             fmt c <> fmt passed_message ->
             Forall loop_output (stdout (print c st'))).
  { intros c st' H' Hc. rewrite stdout_print. apply Forall_app.
    split; [exact H'|]. constructor; [exact Hc | constructor]. }
  destruct (keypair_ret it =? 0); cbn [Z.eqb negb fst]; [|exact H].
  set (st1 := set_cycles0 (t_keypair it) st).
  assert (H1 : Forall loop_output
                 (stdout (if negb (sign_ret it =? 0)
                          then print (Printf "crypto_sign returned <%d>\n"
                                        [ArgInt (sign_ret it)]) st1
                          else st1))).
  { destruct (negb (sign_ret it =? 0)); [apply Hp|]; try exact H.
    cbn. discriminate. }
  set (st2 := if negb (sign_ret it =? 0) then _ else st1) in *.
  set (st3 := set_cycles1 (t_sign it) st2).
  assert (H3 : Forall loop_output
                 (stdout (if negb (open_ret it =? 0)
                          then print (Printf "crypto_sign_open returned <%d>\n"
                                        [ArgInt (open_ret it)]) st3
                          else st3))).
  { destruct (negb (open_ret it =? 0)); [apply Hp|]; try exact H1.
    cbn. discriminate. }
  set (st4 := if negb (open_ret it =? 0) then _ else st3) in *.
  destruct (MLEN =? mlen1 it); cbn [negb fst].
  - destruct (memcmp (m it) (m1 it) (Z.to_nat MLEN) =? 0); cbn [negb fst].
    + exact H3.
    + apply Hp; [exact H3 | cbn; discriminate].
  - apply Hp; [exact H3 | cbn; discriminate].
Qed.

Lemma run_loop_stdout w n : forall i st,
  Forall loop_output (stdout st) ->
  Forall loop_output (stdout (fst (run_loop w n i st))).
Proof.
  induction n as [|n IH]; intros i st H; [exact H|].
  cbn [run_loop].
  pose proof (loop_body_stdout (w i) st H) as Hb.
  destruct (loop_body (w i) st) as [st' [s|]]; cbn [fst] in *; [exact Hb|].
  now apply IH.
Qed.

Lemma run_loop_none w n : forall i st,
  snd (run_loop w n i st) = None -> passes w i n.
Proof.
  induction n as [|n IH]; intros i st H; [intros j Hj; lia|].
  cbn [run_loop] in H.
  destruct (loop_body (w i) st) as [st' [s|]] eqn:E; [discriminate|].
  destruct (loop_body_none (w i) st) as [Hk Hr]; [now rewrite E|].
  apply passes_step; auto. now apply (IH (S i) st').
Qed.

(** X6.  [main] prints the message that the signature tests passed exactly
    when every one of the NRUNS iterations generated its key pair and
    recovered its message. *)
Theorem passed_iff_all_pass (w : nat -> iteration) :
  In passed_message (output w) <-> reaches w (Z.to_nat NRUNS).
Proof.
  unfold output, main.
  set (st0 := {| cycles0 := []; cycles1 := []; cycles2 := [];
                 stdout := [Printf "hello world!\n" []] |}).
  assert (H0 : Forall loop_output (stdout st0)).
  { constructor; [cbn; discriminate | constructor]. }
  pose proof (run_loop_stdout w (Z.to_nat NRUNS) 0%nat st0 H0) as Hout.
  split.
  - intros Hin.
    destruct (run_loop w (Z.to_nat NRUNS) 0 st0) as [st [s|]] eqn:E;
      cbn [fst snd] in *.
    + rewrite Forall_forall in Hout. apply Hout in Hin. now elim Hin.
    + apply (run_loop_none w _ 0%nat st0). now rewrite E.
  - intros Hr. pose proof (run_loop_passes w _ 0%nat st0 Hr) as Hn.
    destruct (run_loop w (Z.to_nat NRUNS) 0 st0) as [st [s|]];
      [discriminate|]. cbn [snd].
    apply in_or_app. right. now left.
Qed.

(** *** The statistics *)

(** X8.  [cmp_llu] is the three-way comparison its header comment
    describes: it returns -1, 0 or 1 as the first value is smaller than,
    equal to or larger than the second.  Swapping the arguments negates the
    result and the order is transitive, which is what [qsort] asks of its
    comparison function. *)
Theorem cmp_llu_comparator (a b c : Z) :
  (cmp_llu a b = -1 <-> a < b)
  /\ (cmp_llu a b = 0 <-> a = b)
  /\ (cmp_llu a b = 1 <-> b < a)
  /\ cmp_llu b a = - cmp_llu a b
  /\ (cmp_llu a b <= 0 -> cmp_llu b c <= 0 -> cmp_llu a c <= 0).
Proof.
  unfold cmp_llu.
  destruct (Z.ltb_spec a b), (Z.ltb_spec b a), (Z.ltb_spec b c),
    (Z.ltb_spec c b), (Z.ltb_spec a c), (Z.ltb_spec c a);
    repeat split; intros; try lia.
Qed.



Lemma qsort_length l : length (qsort l) = length l.
Proof. apply Permutation_length, qsort_perm. Qed.

Lemma sorted_nth_le l : StronglySorted Z.le l ->
  forall i j, (i <= j < length l)%nat -> nth i l 0 <= nth j l 0.
Proof.
  induction 1 as [|x l Hs IH Hx]; intros i j Hij; cbn [length] in *; [lia|].
  destruct i as [|i], j as [|j]; cbn [nth]; try lia.
  - rewrite Forall_forall in Hx. apply Hx. apply nth_In. lia.
  - apply IH. lia.
Qed.

Lemma filter_length_all {A : Type} (f : A -> bool) l :
  Forall (fun x => f x = true) l -> length (filter f l) = length l.
Proof.
  induction 1 as [|x l Hx _ IH]; cbn [filter length]; [reflexivity|].
  rewrite Hx. cbn [length]. now rewrite IH.
Qed.

Lemma filter_length_perm {A : Type} (f : A -> bool) l l' :
  Permutation l l' -> length (filter f l) = length (filter f l').
Proof.
  induction 1 as [|x l l' _ IH|x y l|l l' l'' _ IH1 _ IH2];
    cbn [filter]; try reflexivity.
  - destruct (f x); cbn [length]; now rewrite IH.
  - destruct (f x), (f y); reflexivity.
  - now rewrite IH1.
Qed.

(** The entry at position [k] of the sorted array is an entry of the array
    with more than [k] entries at most as large and at least [n - k] entries
    at least as large. *)
Lemma qsort_nth_counts t k :
  (k < length t)%nat ->
  let v := nth k (qsort t) 0 in
  In v t /\ (k < count_le v t)%nat /\ (length t - k <= count_ge v t)%nat.
Proof.
  intros Hk v.
  pose proof (qsort_perm t) as Hp.
  pose proof (qsort_sorted t) as Hs.
  pose proof (qsort_length t) as Hl.
  split; [|split].
  - apply (Permutation_in _ Hp). apply nth_In. lia.
  - unfold count_le. rewrite <- (filter_length_perm _ _ _ Hp).
    rewrite <- (firstn_skipn (S k) (qsort t)), filter_app, length_app.
    rewrite filter_length_all.
    + rewrite length_firstn. lia.
    + apply Forall_forall. intros x Hx.
      apply (In_nth _ _ 0) in Hx. destruct Hx as (i & Hi & <-).
      rewrite length_firstn in Hi.
      rewrite nth_firstn. replace (i <? S k)%nat with true
        by (symmetry; apply Nat.ltb_lt; lia).
      apply Z.leb_le. apply sorted_nth_le; [exact Hs | lia].
  - unfold count_ge. rewrite <- (filter_length_perm _ _ _ Hp).
    rewrite <- (firstn_skipn k (qsort t)), filter_app, length_app.
    rewrite (filter_length_all _ (skipn k (qsort t))).
    + rewrite length_skipn. lia.
    + apply Forall_forall. intros x Hx.
      apply (In_nth _ _ 0) in Hx. destruct Hx as (i & Hi & <-).
      rewrite length_skipn in Hi.
      rewrite nth_skipn.
      apply Z.leb_le. apply sorted_nth_le; [exact Hs | lia].
Qed.

Lemma median_fst t n :
  fst (median t n) =
    if Nat.eqb (n mod 2) 0
    then ((nth (n / 2 - 1) (qsort t) 0 + nth (n / 2) (qsort t) 0) mod ULONG_MOD) / 2
    else nth (n / 2) (qsort t) 0.
Proof. unfold median. now destruct (Nat.eqb (n mod 2) 0). Qed.

Lemma median_snd t n : snd (median t n) = qsort t.
Proof. unfold median. now destruct (Nat.eqb (n mod 2) 0). Qed.



(** X10.  The sum [l[llen/2-1] + l[llen/2]] is computed in [unsigned long]:
    for an even number of measurements that are all 2^31 or more it wraps
    around, and the value [median] returns is smaller than every
    measurement. *)
Theorem median_wraps_around (t : list Z) :
  (2 <= length t)%nat -> Nat.even (length t) = true ->
  Forall (fun x => 2 ^ 31 <= x < ULONG_MOD) t ->
  Forall (fun x => fst (median t (length t)) < x) t.
Proof.
  intros Hn He Ht.
  set (n := length t) in *.
  apply Nat.even_spec in He. destruct He as [h Eh].
  assert (Hh : (n / 2 = h)%nat).
  { rewrite Eh, Nat.mul_comm. apply Nat.div_mul. lia. }
  assert (Hmod : (n mod 2 = 0)%nat).
  { rewrite Eh, Nat.mul_comm. apply Nat.Div0.mod_mul. }
  assert (Hrange : forall x, In x t -> 2 ^ 31 <= x < ULONG_MOD).
  { now apply Forall_forall. }
  rewrite median_fst, Hmod, Hh. cbn [Nat.eqb].
  assert (Hk1 : (h - 1 < length t)%nat) by (fold n; lia).
  assert (Hk2 : (h < length t)%nat) by (fold n; lia).
  destruct (qsort_nth_counts t _ Hk1) as (Hin1 & _).
  destruct (qsort_nth_counts t _ Hk2) as (Hin2 & _).
  cbv zeta in *.
  apply Hrange in Hin1, Hin2.
  set (lo := nth (h - 1) (qsort t) 0) in *.
  set (hi := nth h (qsort t) 0) in *.
  apply Forall_forall. intros x Hx. apply Hrange in Hx.
  unfold ULONG_MOD in *.
  replace ((lo + hi) mod 2 ^ 32) with (lo + hi - 2 ^ 32).
  - apply Z.div_lt_upper_bound; lia.
  - apply Z.mod_unique with (q := 1); lia.
Qed.

(** The theorem at two measurements above 2^31. *)
Lemma median_wraps_around_witness :
  Forall (fun x => fst (median late_cycles (length late_cycles)) < x)
    late_cycles.
Proof.
  apply (median_wraps_around late_cycles).
  - cbn. lia.
  - reflexivity.
  - unfold ULONG_MOD. repeat constructor; lia.
Defined.



Lemma sum_list_between lo hi l :
  Forall (fun x => lo <= x <= hi) l ->
  Z.of_nat (length l) * lo <= sum_list l <= Z.of_nat (length l) * hi.
Proof.
  induction 1 as [|x l Hx _ IH]; cbn [sum_list fold_right length]; [lia|].
  fold (sum_list l). lia.
Qed.

(** X12.  For [tlen] between 1 and the length of the array, [average]
    returns the sum of the first [tlen] entries divided by [tlen], rounded
    down: the 64-bit accumulator does not wrap around for 32-bit entries, and
    the result lies between any bounds that hold for those entries. *)
Theorem average_is_mean (t : list Z) (tlen : nat) :
  (1 <= tlen <= length t)%nat -> Z.of_nat tlen < ULONG_MOD ->
  Forall is_ulong t ->
  sum_list (firstn tlen t) < ULLONG_MOD
  /\ average t tlen = sum_list (firstn tlen t) / Z.of_nat tlen
  /\ (forall lo hi, Forall (fun x => lo <= x <= hi) (firstn tlen t) ->
      lo <= average t tlen <= hi).
Proof.
  intros Hn Hlen Ht.
  assert (Hl : length (firstn tlen t) = tlen) by (rewrite length_firstn; lia).
  assert (Hb : Forall (fun x => 0 <= x < ULONG_MOD) (firstn tlen t)).
  { rewrite <- (firstn_skipn tlen t) in Ht. apply Forall_app in Ht. tauto. }
  assert (Ea : average t tlen = sum_list (firstn tlen t) / Z.of_nat tlen).
  { rewrite <- (firstn_skipn tlen t) at 1. rewrite <- Hl at 2 3.
    rewrite average_prefix by (rewrite ?Hl; try assumption; lia).
    now rewrite Hl. }
  split; [|split; [exact Ea|]].
  - pose proof (sum_list_bound _ _ Hb) as Hs. rewrite Hl in Hs.
    unfold ULONG_MOD, ULLONG_MOD in *. nia.
  - intros lo hi Hr. rewrite Ea.
    pose proof (sum_list_between _ _ _ Hr) as Hs. rewrite Hl in Hs.
    split; [apply Z.div_le_lower_bound | apply Z.div_le_upper_bound]; lia.
Qed.

(** The theorem at the first three of four measurements. *)
Lemma average_is_mean_witness :
  sum_list (firstn 3 sample_cycles) < ULLONG_MOD
  /\ average sample_cycles 3 = sum_list (firstn 3 sample_cycles) / Z.of_nat 3
  /\ (forall lo hi, Forall (fun x => lo <= x <= hi) (firstn 3 sample_cycles) ->
      lo <= average sample_cycles 3 <= hi).
Proof.
  apply (average_is_mean sample_cycles 3).
  - cbn. lia.
  - unfold ULONG_MOD. cbn. lia.
  - unfold is_ulong, ULONG_MOD. repeat constructor; lia.
Defined.

(** X13.  The average [print_results] prints is biased downwards: it is
    never larger than the mean of all measurements (rounded down), and not
    smaller than a lower bound of the measurements. *)
Theorem print_results_average_below_mean (s : string) (t : list Z) :
  (2 <= length t)%nat -> Z.of_nat (length t) <= ULONG_MOD ->
  Forall is_ulong t ->
  exists a,
    nth_error (print_results s t (length t)) 5
      = Some (Printf "average: %lu " [ArgInt a])
    /\ a <= sum_list t / Z.of_nat (length t)
    /\ (forall lo, Forall (fun x => lo <= x) t -> lo <= a).
Proof.
  intros Hn Hlen Ht.
  pose proof (qsort_perm t) as Hp.
  pose proof (qsort_sorted t) as Hs.
  assert (Hq : qsort t <> []).
  { intros E. rewrite E in Hp. apply Permutation_nil in Hp. subst t.
    cbn in Hn. lia. }
  destruct (exists_last Hq) as (l' & mx & E).
  rewrite E in Hp, Hs.
  assert (Hl' : S (length l') = length t).
  { apply Permutation_length in Hp. rewrite length_app in Hp. cbn in Hp. lia. }
  pose proof (sorted_last _ _ Hs) as Hmax.
  assert (Hb : Forall (fun x => 0 <= x < ULONG_MOD) l').
  { apply (Permutation_Forall (Permutation_sym Hp)) in Ht.
    apply Forall_app in Ht. tauto. }
  assert (Es : sum_list t = sum_list l' + mx).
  { rewrite <- (sum_list_perm _ _ Hp), sum_list_app.
    cbn [sum_list fold_right]. lia. }
  assert (Ea : average (qsort t) (length t - 1)
               = sum_list l' / Z.of_nat (length l')).
  { rewrite E. replace (length t - 1)%nat with (length l') by lia.
    apply average_prefix; try assumption; lia. }
  exists (sum_list l' / Z.of_nat (length l')). split; [|split].
  - unfold print_results, median.
    destruct (Nat.eqb (length t mod 2) 0); cbn [nth_error]; now rewrite Ea.
  - assert (Hup : Forall (fun x => 0 <= x <= mx) l').
    { rewrite Forall_forall in *. intros x Hx.
      specialize (Hb x Hx). specialize (Hmax x Hx). cbv beta in *. lia. }
    pose proof (sum_list_between _ _ _ Hup) as Hsum.
    set (k := Z.of_nat (length l')) in *.
    assert (Hk : 0 < k) by (unfold k; lia).
    assert (Ha : sum_list l' / k <= mx) by (apply Z.div_le_upper_bound; lia).
    pose proof (Z.mul_div_le (sum_list l') k Hk) as Hfl.
    apply Z.div_le_lower_bound; [lia|].
    rewrite Es. replace (Z.of_nat (length t)) with (k + 1) by (unfold k; lia).
    lia.
  - intros lo Hlo.
    assert (Hlo' : Forall (fun x => lo <= x <= mx) l').
    { apply (Permutation_Forall (Permutation_sym Hp)) in Hlo.
      apply Forall_app in Hlo. destruct Hlo as [Hlo _].
      rewrite Forall_forall in *. intros x Hx.
      specialize (Hlo x Hx). specialize (Hmax x Hx). cbv beta in *. lia. }
    pose proof (sum_list_between _ _ _ Hlo') as Hsum.
    apply Z.div_le_lower_bound; lia.
Qed.

(** The theorem at four measurements. *)
Lemma print_results_average_below_mean_witness :
  exists a,
    nth_error (print_results "dilithium sign: " sample_cycles
                 (length sample_cycles)) 5
      = Some (Printf "average: %lu " [ArgInt a])
    /\ a <= sum_list sample_cycles / Z.of_nat (length sample_cycles)
    /\ (forall lo, Forall (fun x => lo <= x) sample_cycles -> lo <= a).
Proof.
  apply (print_results_average_below_mean "dilithium sign: " sample_cycles).
  - cbn. lia.
  - unfold ULONG_MOD. cbn. lia.
  - unfold is_ulong, ULONG_MOD. repeat constructor; lia.
Defined.

(** *** What a run prints *)

Lemma loop_body_pass it st :
  keypair_ret it = 0 -> roundtrip_ok it ->
  loop_body it st =
    ({| cycles0 := cycles0 st ++ [t_keypair it];
        cycles1 := cycles1 st ++ [t_sign it];
        cycles2 := cycles2 st ++ [t_open it];
        stdout := stdout st ++ iteration_messages it |}, None).
Proof.
  intros Hk [Hl Hm]. unfold loop_body, iteration_messages.
  rewrite Hk, Hl, Hm. cbn [Z.eqb negb].
  change (MLEN =? MLEN) with true. cbn [negb].
  destruct st as [c0 c1 c2 out].
  destruct (sign_ret it =? 0), (open_ret it =? 0); cbn [negb app];
    unfold set_cycles0, set_cycles1, set_cycles2, print;
    cbn [cycles0 cycles1 cycles2 stdout];
    rewrite <- ?app_assoc, ?app_nil_r; reflexivity.
Qed.

Lemma run_loop_pass w n : forall i st,
  passes w i n ->
  run_loop w n i st =
    ({| cycles0 := cycles0 st ++ map (fun j => t_keypair (w j)) (seq i n);
        cycles1 := cycles1 st ++ map (fun j => t_sign (w j)) (seq i n);
        cycles2 := cycles2 st ++ map (fun j => t_open (w j)) (seq i n);
        stdout := stdout st
                  ++ flat_map (fun j => iteration_messages (w j)) (seq i n) |},
     None).
Proof.
  induction n as [|n IH]; intros i st Hp.
  - cbn. rewrite !app_nil_r. now destruct st.
  - cbn [run_loop].
    destruct (passes_head _ _ _ Hp) as [Hk Hr].
    rewrite (loop_body_pass _ _ Hk Hr).
    rewrite IH by now apply passes_tail.
    cbn [cycles0 cycles1 cycles2 stdout seq map flat_map].
    rewrite <- !app_assoc. reflexivity.
Qed.

Lemma flat_map_map {A B C : Type} (f : B -> list C) (g : A -> B) l :
  flat_map f (map g l) = flat_map (fun x => f (g x)) l.
Proof.
  induction l as [|x l IH]; cbn [map flat_map]; [reflexivity|].
  now rewrite IH.
Qed.

(** X14.  A run in which every iteration passes prints the greeting, the
    reports of nonzero results of [crypto_sign] and [crypto_sign_open] in
    the order of the iterations, the success message, and the statistics of
    the NRUNS timer readings of key generation, signing and verification,
    and returns 0. *)
Theorem main_output_when_all_pass (w : nat -> iteration) :
  reaches w (Z.to_nat NRUNS) ->
  let its := map w (seq 0 (Z.to_nat NRUNS)) in
  main w =
    (0, [Printf "hello world!\n" []]
        ++ flat_map iteration_messages its
        ++ [Printf "Signature tests PASSED... \n\n" []]
        ++ print_results "dilithium keygen: " (map t_keypair its) (Z.to_nat NRUNS)
        ++ print_results "dilithium sign: " (map t_sign its) (Z.to_nat NRUNS)
        ++ print_results "dilithium verify: " (map t_open its) (Z.to_nat NRUNS)).
Proof.
  intros Hr its. unfold main.
  rewrite run_loop_pass by exact Hr.
  cbn [cycles0 cycles1 cycles2 stdout app].
  subst its. rewrite !map_map, flat_map_map. reflexivity.
Qed.

(** The theorem at the run whose iterations all pass. *)
Lemma main_output_when_all_pass_witness :
  let its := map (fun _ : nat => passing_iteration) (seq 0 (Z.to_nat NRUNS)) in
  main (fun _ => passing_iteration) =
    (0, [Printf "hello world!\n" []]
        ++ flat_map iteration_messages its
        ++ [Printf "Signature tests PASSED... \n\n" []]
        ++ print_results "dilithium keygen: " (map t_keypair its) (Z.to_nat NRUNS)
        ++ print_results "dilithium sign: " (map t_sign its) (Z.to_nat NRUNS)
        ++ print_results "dilithium verify: " (map t_open its) (Z.to_nat NRUNS)).
Proof.
  apply (main_output_when_all_pass (fun _ => passing_iteration)).
  intros j Hj. split; [reflexivity|]. split; [reflexivity|].
  vm_compute. reflexivity.
Defined.

Lemma loop_body_checked it st :
  keypair_ret it = 0 ->
  loop_body it st =
    let st' := {| cycles0 := cycles0 st ++ [t_keypair it];
                  cycles1 := cycles1 st ++ [t_sign it];
                  cycles2 := cycles2 st ++ [t_open it];
                  stdout := stdout st ++ iteration_messages it |} in
    if negb (MLEN =? mlen1 it)
    then (print (Printf "length fail" []) st', Some 0)
    else if negb (memcmp (m it) (m1 it) (Z.to_nat MLEN) =? 0)
    then (print (Printf "message fail\n" []) st', Some 0)
    else (st', None).
Proof.
  intros Hk. unfold loop_body, iteration_messages.
  rewrite Hk. cbn [Z.eqb negb].
  destruct st as [c0 c1 c2 out].
  destruct (sign_ret it =? 0), (open_ret it =? 0); cbn [negb app];
    unfold set_cycles0, set_cycles1, set_cycles2, print;
    cbn [cycles0 cycles1 cycles2 stdout];
    rewrite <- ?app_assoc, ?app_nil_r; reflexivity.
Qed.

(** X15.  A run that stops in iteration [k] prints the greeting and the
    reports of the earlier iterations, then: nothing more when
    [crypto_sign_keypair] failed (status 1); the reports of iteration [k]
    and the text for a wrong length when the recovered length differs from
    [MLEN], whatever the recovered bytes are; the reports and the text for a
    wrong message otherwise (status 0).  No statistics are printed. *)
Theorem main_output_when_stopped (w : nat -> iteration) (k : nat) :
  (k < Z.to_nat NRUNS)%nat -> reaches w k ->
  let before := [Printf "hello world!\n" []]
                ++ flat_map iteration_messages (map w (seq 0 k)) in
  (keypair_ret (w k) <> 0 -> main w = (1, before))
  /\ (keypair_ret (w k) = 0 -> mlen1 (w k) <> MLEN ->
      main w = (0, before ++ iteration_messages (w k)
                   ++ [Printf "length fail" []]))
  /\ (keypair_ret (w k) = 0 -> mlen1 (w k) = MLEN ->
      memcmp (m (w k)) (m1 (w k)) (Z.to_nat MLEN) <> 0 ->
      main w = (0, before ++ iteration_messages (w k)
                   ++ [Printf "message fail\n" []])).
Proof.
  intros Hk Hr before. unfold main.
  rewrite (run_loop_split w k _ 0%nat _ Hk Hr).
  rewrite (run_loop_pass w k 0%nat _ Hr).
  cbn [fst Nat.add cycles0 cycles1 cycles2 stdout].
  rewrite <- (flat_map_map iteration_messages w).
  fold before.
  split; [|split].
  - intros Hbad. now rewrite loop_body_keypair_fail.
  - intros Hkp Hlen. rewrite (loop_body_checked _ _ Hkp). cbv zeta.
    destruct (Z.eqb_spec MLEN (mlen1 (w k))) as [E|_]; [congruence|].
    cbn [negb]. unfold print. cbn [stdout].
    now rewrite <- app_assoc.
  - intros Hkp Hlen Hcmp. rewrite (loop_body_checked _ _ Hkp). cbv zeta.
    rewrite Hlen, Z.eqb_refl. cbn [negb].
    destruct (Z.eqb_spec (memcmp (m (w k)) (m1 (w k)) (Z.to_nat MLEN)) 0)
      as [E|_]; [congruence|].
    cbn [negb]. unfold print. cbn [stdout].
    now rewrite <- app_assoc.
Qed.

(** The theorem at a run that stops in iteration 2. *)
Lemma main_output_when_stopped_witness :
  let w := rejected_run in
  let before := [Printf "hello world!\n" []]
                ++ flat_map iteration_messages (map w (seq 0 2)) in
  (keypair_ret (w 2%nat) <> 0 -> main w = (1, before))
  /\ (keypair_ret (w 2%nat) = 0 -> mlen1 (w 2%nat) <> MLEN ->
      main w = (0, before ++ iteration_messages (w 2%nat)
                   ++ [Printf "length fail" []]))
  /\ (keypair_ret (w 2%nat) = 0 -> mlen1 (w 2%nat) = MLEN ->
      memcmp (m (w 2%nat)) (m1 (w 2%nat)) (Z.to_nat MLEN) <> 0 ->
      main w = (0, before ++ iteration_messages (w 2%nat)
                   ++ [Printf "message fail\n" []])).
Proof.
  apply (main_output_when_stopped rejected_run 2).
  - vm_compute. lia.
  - intros j Hj. destruct j as [|[|j]]; [vm_compute; auto | vm_compute; auto | lia].
Defined.

(** *** The run with its calls recorded *)

Lemma trace_call e mc : trace (call e mc) = trace mc ++ [e].
Proof. reflexivity. Qed.
Lemma vars_call e mc : vars (call e mc) = vars mc.
Proof. reflexivity. Qed.
Lemma trace_call_printf c mc : trace (call_printf c mc) = trace mc ++ [printf c].
Proof. reflexivity. Qed.
Lemma vars_call_printf c mc : vars (call_printf c mc) = print c (vars mc).
Proof. reflexivity. Qed.
Lemma trace_assign f mc : trace (assign f mc) = trace mc.
Proof. reflexivity. Qed.
Lemma vars_assign f mc : vars (assign f mc) = f (vars mc).
Proof. reflexivity. Qed.

Create Rewrite HintDb machine.
#[local] Hint Rewrite trace_call vars_call trace_call_printf vars_call_printf
  trace_assign vars_assign : machine.

Lemma loop_body_trace_vars it mc :
  (vars (fst (loop_body_trace it mc)), snd (loop_body_trace it mc))
  = loop_body it (vars mc).
Proof.
  unfold loop_body_trace, loop_body.
  destruct (keypair_ret it =? 0); cbn [Z.eqb negb]; [|reflexivity].
  destruct (sign_ret it =? 0), (open_ret it =? 0),
    (MLEN =? mlen1 it), (memcmp (m it) (m1 it) (Z.to_nat MLEN) =? 0);
    cbn [negb fst snd]; autorewrite with machine; reflexivity.
Qed.

Lemma run_loop_trace_vars w n : forall i mc,
  (vars (fst (run_loop_trace w n i mc)), snd (run_loop_trace w n i mc))
  = run_loop w n i (vars mc).
Proof.
  induction n as [|n IH]; intros i mc; [reflexivity|].
  cbn [run_loop_trace run_loop].
  rewrite <- (loop_body_trace_vars (w i) mc).
  destruct (loop_body_trace (w i) mc) as [mc' [s|]]; cbn [fst snd];
    [reflexivity | apply IH].
Qed.

Lemma loop_body_trace_events it mc :
  trace (fst (loop_body_trace it mc)) = trace mc ++ iteration_events it.
Proof.
  unfold iteration_events, loop_body_trace.
  destruct (keypair_ret it =? 0); cbn [Z.eqb negb];
    [destruct (sign_ret it =? 0), (open_ret it =? 0),
       (MLEN =? mlen1 it), (memcmp (m it) (m1 it) (Z.to_nat MLEN) =? 0)|];
    cbn [negb fst]; autorewrite with machine;
    rewrite <- ?app_assoc; reflexivity.
Qed.

Lemma printfs_app tr tr' : printfs (tr ++ tr') = printfs tr ++ printfs tr'.
Proof. apply flat_map_app. Qed.

Lemma printfs_iteration_events it :
  printfs (iteration_events it) =
    if keypair_ret it =? 0
    then iteration_messages it
         ++ (if negb (MLEN =? mlen1 it)
             then [Printf "length fail" []]
             else if negb (memcmp (m it) (m1 it) (Z.to_nat MLEN) =? 0)
             then [Printf "message fail\n" []]
             else [])
    else [].
Proof.
  unfold iteration_events, iteration_messages.
  destruct (keypair_ret it =? 0); [|reflexivity].
  destruct (sign_ret it =? 0), (open_ret it =? 0),
    (MLEN =? mlen1 it), (memcmp (m it) (m1 it) (Z.to_nat MLEN) =? 0);
    reflexivity.
Qed.

Lemma loop_body_stdout_events it st :
  stdout (fst (loop_body it st)) = stdout st ++ printfs (iteration_events it).
Proof.
  rewrite printfs_iteration_events.
  destruct (Z.eqb_spec (keypair_ret it) 0) as [Hk|Hk].
  - rewrite (loop_body_checked _ _ Hk). cbv zeta.
    destruct (MLEN =? mlen1 it), (memcmp (m it) (m1 it) (Z.to_nat MLEN) =? 0);
      cbn [negb fst stdout print]; rewrite <- ?app_assoc, ?app_nil_r;
      reflexivity.
  - rewrite (loop_body_keypair_fail _ _ Hk). cbn [fst].
    now rewrite app_nil_r.
Qed.

Lemma run_loop_trace_printfs w n : forall i mc,
  printfs (trace mc) = stdout (vars mc) ->
  printfs (trace (fst (run_loop_trace w n i mc)))
  = stdout (vars (fst (run_loop_trace w n i mc))).
Proof.
  induction n as [|n IH]; intros i mc H; [exact H|].
  cbn [run_loop_trace].
  pose proof (loop_body_trace_vars (w i) mc) as Hv.
  pose proof (loop_body_trace_events (w i) mc) as He.
  pose proof (loop_body_stdout_events (w i) (vars mc)) as Hs.
  rewrite <- Hv in Hs. cbn [fst] in Hs.
  assert (Hinv : printfs (trace (fst (loop_body_trace (w i) mc)))
                 = stdout (vars (fst (loop_body_trace (w i) mc)))).
  { now rewrite He, printfs_app, H, Hs. }
  destruct (loop_body_trace (w i) mc) as [mc' [s|]]; cbn [fst] in *;
    [exact Hinv | now apply IH].
Qed.

Lemma print_results_trace_trace s t n mc :
  trace (print_results_trace s t n mc)
  = trace mc ++ map printf (print_results s t n).
Proof.
  unfold print_results_trace. generalize (print_results s t n). intros l.
  revert mc. induction l as [|c l IH]; intros mc; cbn [fold_left map].
  - now rewrite app_nil_r.
  - rewrite IH, trace_call_printf. now rewrite <- app_assoc.
Qed.

Lemma print_results_trace_cycles s t n mc :
  cycles0 (vars (print_results_trace s t n mc)) = cycles0 (vars mc)
  /\ cycles1 (vars (print_results_trace s t n mc)) = cycles1 (vars mc)
  /\ cycles2 (vars (print_results_trace s t n mc)) = cycles2 (vars mc).
Proof.
  unfold print_results_trace. generalize (print_results s t n). intros l.
  revert mc. induction l as [|c l IH]; intros mc; cbn [fold_left]; [auto|].
  destruct (IH (call_printf c mc)) as (-> & -> & ->). auto.
Qed.

Lemma prt_cycles1 s t n mc :
  cycles1 (vars (print_results_trace s t n mc)) = cycles1 (vars mc).
Proof. apply print_results_trace_cycles. Qed.

Lemma prt_cycles2 s t n mc :
  cycles2 (vars (print_results_trace s t n mc)) = cycles2 (vars mc).
Proof. apply print_results_trace_cycles. Qed.

Lemma printfs_map_printf l : printfs (map printf l) = l.
Proof.
  induction l as [|c l IH]; [reflexivity|].
  cbn [map printfs flat_map app]. f_equal. exact IH.
Qed.

(** The recorded run prints what [main] prints and ends as [main] ends. *)
Lemma main_trace_main w :
  fst (main_trace w) = exit_status w
  /\ printfs (snd (main_trace w)) = output w.
Proof.
  unfold exit_status, output, main, main_trace.
  set (mc0 := call_printf _ (call init_platform _)).
  pose proof (run_loop_trace_vars w (Z.to_nat NRUNS) 0%nat mc0) as Hv.
  pose proof (run_loop_trace_printfs w (Z.to_nat NRUNS) 0%nat mc0 eq_refl) as Hp.
  change (vars mc0) with
    {| cycles0 := []; cycles1 := []; cycles2 := [];
       stdout := [Printf "hello world!\n" []] |} in Hv.
  rewrite <- Hv. clearbody mc0.
  destruct (run_loop_trace w (Z.to_nat NRUNS) 0 mc0) as [mc [s|]];
    cbn [fst snd] in *; [split; [reflexivity | exact Hp]|].
  split; [reflexivity|].
  rewrite trace_call, !print_results_trace_trace.
  rewrite !prt_cycles2, !prt_cycles1.
  rewrite trace_call_printf, vars_call_printf.
  rewrite !printfs_app, !printfs_map_printf, Hp.
  cbn [print cycles0 cycles1 cycles2 printfs flat_map app].
  rewrite <- !app_assoc. reflexivity.
Qed.

Lemma iteration_events_no_cleanup it :
  ~ In cleanup_platform (iteration_events it).
Proof.
  unfold iteration_events.
  destruct (keypair_ret it =? 0);
    [destruct (sign_ret it =? 0), (open_ret it =? 0),
       (MLEN =? mlen1 it), (memcmp (m it) (m1 it) (Z.to_nat MLEN) =? 0)|];
    cbn [negb app In]; intuition discriminate.
Qed.

Lemma run_loop_trace_no_cleanup w n : forall i mc,
  ~ In cleanup_platform (trace mc) ->
  ~ In cleanup_platform (trace (fst (run_loop_trace w n i mc))).
Proof.
  induction n as [|n IH]; intros i mc H; [exact H|].
  cbn [run_loop_trace].
  pose proof (loop_body_trace_events (w i) mc) as He.
  assert (H' : ~ In cleanup_platform (trace (fst (loop_body_trace (w i) mc)))).
  { rewrite He. intros Hin. apply in_app_or in Hin. destruct Hin as [Hin|Hin];
      [now apply H | now apply (iteration_events_no_cleanup (w i))]. }
  destruct (loop_body_trace (w i) mc) as [mc' [s|]]; cbn [fst] in *;
    [exact H' | now apply IH].
Qed.

Lemma run_loop_trace_prefix w n : forall i mc,
  exists tr, trace (fst (run_loop_trace w n i mc)) = trace mc ++ tr.
Proof.
  induction n as [|n IH]; intros i mc.
  - exists []. cbn [run_loop_trace fst]. now rewrite app_nil_r.
  - cbn [run_loop_trace].
    pose proof (loop_body_trace_events (w i) mc) as He.
    destruct (loop_body_trace (w i) mc) as [mc' [s|]]; cbn [fst] in *.
    + eexists. exact He.
    + destruct (IH (S i) mc') as [tr Htr]. rewrite Htr, He, <- app_assoc.
      eexists. reflexivity.
Qed.

(** X16.  [main] calls [init_platform] first in every run, and
    [cleanup_platform] exactly in the runs in which every iteration passes,
    as its last call: the early returns leave the platform as it is. *)
Theorem cleanup_platform_iff_all_pass (w : nat -> iteration) :
  (exists tr, snd (main_trace w) = init_platform :: tr)
  /\ (In cleanup_platform (snd (main_trace w)) <-> reaches w (Z.to_nat NRUNS))
  /\ (reaches w (Z.to_nat NRUNS) ->
      exists tr, snd (main_trace w) = tr ++ [cleanup_platform]).
Proof.
  unfold main_trace.
  set (mc0 := call_printf _ (call init_platform _)).
  pose proof (run_loop_trace_vars w (Z.to_nat NRUNS) 0%nat mc0) as Hv.
  pose proof (run_loop_trace_prefix w (Z.to_nat NRUNS) 0%nat mc0) as [tr0 Hpre].
  assert (Hnc : ~ In cleanup_platform
                  (trace (fst (run_loop_trace w (Z.to_nat NRUNS) 0 mc0)))).
  { apply run_loop_trace_no_cleanup. cbn. intuition discriminate. }
  assert (Hreach : snd (run_loop_trace w (Z.to_nat NRUNS) 0 mc0) = None
                   <-> reaches w (Z.to_nat NRUNS)).
  { replace (snd (run_loop_trace w (Z.to_nat NRUNS) 0 mc0))
      with (snd (run_loop w (Z.to_nat NRUNS) 0 (vars mc0))) by now rewrite <- Hv.
    split; [apply (run_loop_none w _ 0%nat) | apply (run_loop_passes w _ 0%nat)]. }
  change (trace mc0) with [init_platform; printf (Printf "hello world!\n" [])]
    in Hpre.
  clearbody mc0.
  destruct (run_loop_trace w (Z.to_nat NRUNS) 0 mc0) as [mc [s|]];
    cbn [fst snd] in *.
  - split; [|split].
    + rewrite Hpre. eexists. reflexivity.
    + split; [intros Hin; contradiction|].
      intros Hr. apply Hreach in Hr. discriminate.
    + intros Hr. apply Hreach in Hr. discriminate.
  - split; [|split].
    + rewrite trace_call, !print_results_trace_trace, trace_call_printf, Hpre.
      cbn [app]. eexists. reflexivity.
    + split; [intros _; now apply Hreach|].
      intros _. rewrite trace_call. apply in_or_app. right. now left.
    + intros _. rewrite trace_call. eexists. reflexivity.
Qed.

Lemma timed_app tr' : forall tr running,
  timed running (tr ++ tr')
  = timed running tr ++ timed (fold_left timer_after tr running) tr'.
Proof.
  induction tr as [|e tr IH]; intros running; cbn [app timed fold_left];
    [reflexivity|].
  now rewrite IH.
Qed.

Lemma timer_running_app tr tr' :
  timer_running (tr ++ tr') = fold_left timer_after tr' (timer_running tr).
Proof. unfold timer_running. apply fold_left_app. Qed.

Lemma well_timed_app tr tr' :
  well_timed tr -> timer_running tr = false -> well_timed tr' ->
  well_timed (tr ++ tr').
Proof.
  unfold well_timed, timer_running. intros H Hr H'.
  rewrite timed_app, Hr. apply Forall_app. now split.
Qed.

Lemma not_returned_message c :
  fmt c <> "crypto_sign returned <%d>\n"%string ->
  fmt c <> "crypto_sign_open returned <%d>\n"%string ->
  false = true <-> returned_message c.
Proof.
  intros H1 H2. split; [discriminate|]. intros [H|H]; contradiction.
Qed.

Ltac window_tac :=
  repeat (apply Forall_cons;
          [ cbn [window_discipline];
            first [ reflexivity
                  | apply not_returned_message; cbn [fmt]; discriminate
                  | split; [ intros _; unfold returned_message; cbn [fmt]; auto
                           | reflexivity ] ]
          | ]);
  try apply Forall_nil.

Lemma iteration_events_well_timed it :
  well_timed (iteration_events it)
  /\ (timer_running (iteration_events it) = true <-> keypair_ret it <> 0).
Proof.
  unfold well_timed, timer_running, iteration_events.
  destruct (Z.eqb_spec (keypair_ret it) 0) as [Hk|Hk].
  - destruct (sign_ret it =? 0), (open_ret it =? 0),
      (MLEN =? mlen1 it), (memcmp (m it) (m1 it) (Z.to_nat MLEN) =? 0);
      cbn [negb app timed timer_after fold_left];
      (split; [|split; [discriminate | intros; contradiction]]);
      window_tac.
  - cbn [app timed timer_after fold_left].
    split; [|split; auto]. window_tac.
Qed.

Lemma run_loop_trace_well_timed w n : forall i mc,
  well_timed (trace mc) -> timer_running (trace mc) = false ->
  well_timed (trace (fst (run_loop_trace w n i mc)))
  /\ (timer_running (trace (fst (run_loop_trace w n i mc))) = true
      <-> snd (run_loop_trace w n i mc) = Some 1).
Proof.
  induction n as [|n IH]; intros i mc H Hr.
  { cbn [run_loop_trace fst snd]. rewrite Hr.
    split; [exact H|]. split; discriminate. }
  cbn [run_loop_trace].
  pose proof (loop_body_trace_events (w i) mc) as He.
  pose proof (loop_body_trace_vars (w i) mc) as Hv.
  destruct (iteration_events_well_timed (w i)) as [Hw Hrun].
  assert (H' : well_timed (trace (fst (loop_body_trace (w i) mc)))).
  { rewrite He. now apply well_timed_app. }
  assert (Hr' : timer_running (trace (fst (loop_body_trace (w i) mc)))
                = timer_running (iteration_events (w i))).
  { rewrite He, timer_running_app, Hr. reflexivity. }
  destruct (loop_body_trace (w i) mc) as [mc' [s|]]; cbn [fst snd] in *.
  - split; [exact H'|]. rewrite Hr', Hrun. split.
    + intros Hk. rewrite (loop_body_keypair_fail _ _ Hk) in Hv. congruence.
    + intros [= ->]. apply (loop_body_status_1 (w i) (vars mc)).
      now rewrite <- Hv.
  - apply IH; [exact H'|]. rewrite Hr'.
    destruct (timer_running (iteration_events (w i))); [|reflexivity].
    exfalso. apply Hrun; [reflexivity|].
    apply (loop_body_none (w i) (vars mc)). now rewrite <- Hv.
Qed.

Lemma quiet_app tr tr' :
  well_timed tr /\ timer_running tr = false ->
  well_timed tr' /\ timer_running tr' = false ->
  well_timed (tr ++ tr') /\ timer_running (tr ++ tr') = false.
Proof.
  intros [H Hr] [H' Hr']. split; [now apply well_timed_app|].
  rewrite timer_running_app, Hr. exact Hr'.
Qed.

Lemma print_results_well_timed s t n :
  well_timed (map printf (print_results s t n))
  /\ timer_running (map printf (print_results s t n)) = false.
Proof.
  unfold print_results. destruct (median t n) as [med t'].
  unfold well_timed, timer_running. cbn [map timed timer_after fold_left].
  split; [|reflexivity]. window_tac.
Qed.

(** X17.  In every run the timer is started only when stopped and read
    only when running, each call into the signature library falls between a
    start and the next reading, and [randombytes], the platform calls and
    the output fall outside, with one exception: the reports of nonzero
    results of [crypto_sign] and [crypto_sign_open] are printed while the
    timer runs, so their printing is part of the measurement.  The timer is
    left running exactly by the runs that return 1. *)
Theorem main_timed_windows (w : nat -> iteration) :
  Forall window_discipline (timed false (snd (main_trace w)))
  /\ (timer_running (snd (main_trace w)) = true <-> fst (main_trace w) = 1).
Proof.
  unfold main_trace.
  set (mc0 := call_printf _ (call init_platform _)).
  assert (H0 : well_timed (trace mc0)).
  { unfold well_timed. cbn [mc0 call call_printf trace app timed timer_after].
    window_tac. }
  destruct (run_loop_trace_well_timed w (Z.to_nat NRUNS) 0%nat mc0 H0 eq_refl)
    as [Hw Hr].
  clearbody mc0.
  destruct (run_loop_trace w (Z.to_nat NRUNS) 0 mc0) as [mc [s|]] eqn:E;
    cbn [fst snd] in *.
  - split; [exact Hw|]. rewrite Hr. split; congruence.
  - assert (Hq : timer_running (trace mc) = false).
    { destruct (timer_running (trace mc)); [|reflexivity].
      destruct Hr as [Hr _]. specialize (Hr eq_refl). discriminate. }
    rewrite trace_call, !print_results_trace_trace, trace_call_printf.
    assert (Hall : forall tr,
              well_timed tr /\ timer_running tr = false ->
              Forall window_discipline (timed false tr)
              /\ (timer_running tr = true <-> 0 = 1)).
    { intros tr [Ht Htr]. split; [exact Ht|]. rewrite Htr.
      split; discriminate. }
    apply Hall.
    repeat apply quiet_app; try apply print_results_well_timed;
      try (split; [exact Hw | exact Hq]).
    + split; [|reflexivity]. unfold well_timed. cbn [timed]. window_tac.
    + split; [|reflexivity]. unfold well_timed. cbn [timed]. window_tac.
Qed.

Lemma calls_app f tr tr' : calls f (tr ++ tr') = (calls f tr + calls f tr')%nat.
Proof. unfold calls. now rewrite filter_app, length_app. Qed.

Lemma call_counts_app tr tr' k k' failed :
  call_counts tr k 0 -> call_counts tr' k' failed ->
  call_counts (tr ++ tr') (k + k') failed.
Proof.
  unfold call_counts. rewrite !calls_app.
  intros (-> & -> & -> & -> & -> & ->) (-> & -> & -> & -> & -> & ->).
  repeat split; lia.
Qed.

Lemma iteration_events_call_counts it :
  if keypair_ret it =? 0
  then call_counts (iteration_events it) 1 0
  else call_counts (iteration_events it) 0 1.
Proof.
  unfold iteration_events.
  destruct (keypair_ret it =? 0);
    [destruct (sign_ret it =? 0), (open_ret it =? 0),
       (MLEN =? mlen1 it), (memcmp (m it) (m1 it) (Z.to_nat MLEN) =? 0)|];
    repeat split.
Qed.

Lemma calls_map_printf f l : calls f (map printf l) = 0%nat.
Proof.
  unfold calls. induction l as [|c l IH]; [reflexivity|].
  cbn [map filter]. now destruct f.
Qed.

Lemma run_loop_trace_call_counts w n : forall i mc k,
  call_counts (trace mc) k 0 ->
  exists k', (k' <= k + n)%nat
    /\ call_counts (trace (fst (run_loop_trace w n i mc))) k'
         (match snd (run_loop_trace w n i mc) with
          | Some status => if status =? 1 then 1 else 0
          | None => 0
          end)
    /\ (snd (run_loop_trace w n i mc) = None -> k' = (k + n)%nat).
Proof.
  induction n as [|n IH]; intros i mc k H.
  { exists k. split; [lia|]. split; [exact H|]. intros _. cbn. lia. }
  cbn [run_loop_trace].
  pose proof (loop_body_trace_events (w i) mc) as He.
  pose proof (loop_body_trace_vars (w i) mc) as Hv.
  pose proof (iteration_events_call_counts (w i)) as Hc.
  destruct (loop_body_trace (w i) mc) as [mc' [s|]]; cbn [fst snd] in *.
  - rewrite He.
    destruct (Z.eqb_spec (keypair_ret (w i)) 0) as [Hk|Hk].
    + exists (k + 1)%nat. split; [lia|]. split; [|discriminate].
      replace (if s =? 1 then 1%nat else 0%nat) with 0%nat.
      * now apply call_counts_app.
      * destruct (Z.eqb_spec s 1) as [->|]; [|reflexivity].
        exfalso. apply (loop_body_status_1 (w i) (vars mc)); [|exact Hk].
        now rewrite <- Hv.
    + exists (k + 0)%nat. split; [lia|]. split; [|discriminate].
      rewrite (loop_body_keypair_fail _ _ Hk) in Hv. injection Hv as _ ->.
      cbn [Z.eqb Pos.eqb]. now apply call_counts_app.
  - destruct (Z.eqb_spec (keypair_ret (w i)) 0) as [Hk|Hk].
    + destruct (IH (S i) mc' (k + 1)%nat) as (k' & Hk' & Hcc & Hall).
      { rewrite He. now apply call_counts_app. }
      exists k'. split; [lia|]. split; [exact Hcc|].
      intros Hn. rewrite (Hall Hn). lia.
    + exfalso. rewrite (loop_body_keypair_fail _ _ Hk) in Hv. discriminate.
Qed.

(** X18.  In every run [crypto_sign] and [crypto_sign_open] are called
    equally often ([crypto_sign_open] is called also after a [crypto_sign]
    that failed), with three timer readings for each such pair;
    [randombytes] and [crypto_sign_keypair] are called once more exactly in
    the runs that return 1.  A run in which every iteration passes makes
    NRUNS calls of each. *)
Theorem main_call_counts (w : nat -> iteration) :
  exists k, (k <= Z.to_nat NRUNS)%nat
    /\ call_counts (snd (main_trace w)) k
         (if fst (main_trace w) =? 1 then 1 else 0)
    /\ (reaches w (Z.to_nat NRUNS) -> k = Z.to_nat NRUNS).
Proof.
  unfold main_trace.
  set (mc0 := call_printf _ (call init_platform _)).
  assert (H0 : call_counts (trace mc0) 0 0) by (repeat split).
  destruct (run_loop_trace_call_counts w (Z.to_nat NRUNS) 0%nat mc0 0%nat H0)
    as (k & Hk & Hcc & Hall).
  pose proof (run_loop_trace_vars w (Z.to_nat NRUNS) 0%nat mc0) as Hv.
  assert (Hreach : reaches w (Z.to_nat NRUNS) ->
                   snd (run_loop_trace w (Z.to_nat NRUNS) 0 mc0) = None).
  { intros Hr.
    replace (snd (run_loop_trace w (Z.to_nat NRUNS) 0 mc0))
      with (snd (run_loop w (Z.to_nat NRUNS) 0 (vars mc0))) by now rewrite <- Hv.
    now apply (run_loop_passes w _ 0%nat). }
  clearbody mc0.
  destruct (run_loop_trace w (Z.to_nat NRUNS) 0 mc0) as [mc [s|]];
    cbn [fst snd] in *.
  - exists k. split; [lia|]. split; [exact Hcc|].
    intros Hr. apply Hreach in Hr. discriminate.
  - exists k. split; [lia|]. split; [|intros _; now apply Hall].
    cbn [Z.eqb].
    rewrite trace_call, !print_results_trace_trace, trace_call_printf.
    unfold call_counts in *. rewrite !calls_app, !calls_map_printf.
    cbn [calls filter is_call length].
    destruct Hcc as (-> & -> & -> & -> & -> & ->). repeat split; lia.
Qed.

End HarnessTheory.

(** ** Properties of the field arithmetic *)

Module ReduceTheory.
Import Params Poly Reduce NttRec.

Lemma wrap32_small x : - 2 ^ 31 <= x < 2 ^ 31 -> wrap32 x = x.
Proof.
  intros H. unfold wrap32. rewrite Z.mod_small; lia.
Qed.

Lemma wrap64_small x : - 2 ^ 63 <= x < 2 ^ 63 -> wrap64 x = x.
Proof.
  intros H. unfold wrap64. rewrite Z.mod_small; lia.
Qed.

Lemma wrap32_range x : - 2 ^ 31 <= wrap32 x < 2 ^ 31.
Proof.
  unfold wrap32. pose proof (Z.mod_pos_bound (x + 2 ^ 31) (2 ^ 32)). lia.
Qed.

(** [wrap32 x] differs from [x] by a multiple of 2^32. *)
Lemma wrap32_multiple x : exists c, wrap32 x = x + c * 2 ^ 32.
Proof.
  exists (- ((x + 2 ^ 31) / 2 ^ 32)). unfold wrap32.
  pose proof (Z.div_mod (x + 2 ^ 31) (2 ^ 32)). lia.
Qed.

#[export] Instance cong_equiv : Equivalence cong.
Proof.
  split; unfold cong; [intros x | intros x y | intros x y z]; congruence.
Qed.

#[export] Instance cong_add : Proper (cong ==> cong ==> cong) Z.add.
Proof.
  intros a a' Ha b b' Hb. unfold cong in *.
  now rewrite Zplus_mod, Ha, Hb, <- Zplus_mod.
Qed.

#[export] Instance cong_sub : Proper (cong ==> cong ==> cong) Z.sub.
Proof.
  intros a a' Ha b b' Hb. unfold cong in *.
  now rewrite Zminus_mod, Ha, Hb, <- Zminus_mod.
Qed.

#[export] Instance cong_mul : Proper (cong ==> cong ==> cong) Z.mul.
Proof.
  intros a a' Ha b b' Hb. unfold cong in *.
  now rewrite Zmult_mod, Ha, Hb, <- Zmult_mod.
Qed.

#[export] Instance cong_opp : Proper (cong ==> cong) Z.opp.
Proof.
  intros a a' Ha. rewrite <- !Z.sub_0_l. now rewrite Ha.
Qed.

Lemma cong_multiple a c : cong (a + c * Q) a.
Proof. unfold cong. apply Z.mod_add. discriminate. Qed.

Lemma RINV_spec : cong (2 ^ 32 * RINV) 1.
Proof. vm_compute. reflexivity. Qed.

(** [MONT] is 2^32 modulo [Q], and [QINV] inverts [Q] modulo 2^32. *)
Lemma MONT_spec : cong MONT (2 ^ 32) /\ (QINV * Q) mod 2 ^ 32 = 1.
Proof. vm_compute. split; reflexivity. Qed.

Lemma montgomery_reduce_spec a :
  - (2 ^ 31 * Q) < a < 2 ^ 31 * Q ->
  - Q < montgomery_reduce a < Q
  /\ cong (montgomery_reduce a) (a * RINV).
Proof.
  intros Ha. unfold montgomery_reduce.
  pose proof (wrap32_range a) as Hw.
  rewrite (wrap64_small (wrap32 a * QINV)) by (unfold QINV; lia).
  destruct (wrap32_multiple a) as [c1 Hc1].
  destruct (wrap32_multiple (wrap32 a * QINV)) as [c2 Hc2].
  pose proof (wrap32_range (wrap32 a * QINV)) as Ht.
  set (t := wrap32 (wrap32 a * QINV)) in *.
  unfold Q in *.
  rewrite (wrap64_small (t * 8380417)) by lia.
  rewrite (wrap64_small (a - t * 8380417)) by lia.
  rewrite Z.shiftr_div_pow2 by lia.
  (* a - t*Q is a multiple of 2^32 *)
  assert (Hr : a - t * 8380417
               = (- (a * 114592) - c1 * 492168892383233 - c2 * 8380417) * 2 ^ 32).
  { rewrite Hc2, Hc1. unfold QINV. lia. }
  rewrite Hr, Z.div_mul by lia.
  set (r := - (a * 114592) - c1 * 492168892383233 - c2 * 8380417) in *.
  assert (Hrange : - 8380417 < r < 8380417) by lia.
  rewrite wrap32_small by lia.
  split; [exact Hrange|].
  clearbody r t.
  replace (a * RINV) with (r * (2 ^ 32 * RINV) + t * RINV * Q)
    by (unfold RINV, Q; lia).
  rewrite cong_multiple, RINV_spec. now rewrite Z.mul_1_r.
Qed.

(** Arrays with coefficients in a range. *)
Lemma coeffs_in_nth lo hi a p :
  coeffs_in lo hi a = true -> (p < length a)%nat -> lo <= nth p a 0 <= hi.
Proof.
  intros H Hp. unfold coeffs_in in H. rewrite forallb_forall in H.
  specialize (H (nth p a 0) (nth_In a 0 Hp)).
  apply andb_true_iff in H. lia.
Qed.

Lemma coeffs_in_Forall lo hi a :
  coeffs_in lo hi a = true -> Forall (fun c => lo <= c <= hi) a.
Proof.
  unfold coeffs_in. rewrite forallb_forall, Forall_forall.
  intros H c Hc. apply H in Hc. apply andb_true_iff in Hc. lia.
Qed.

End ReduceTheory.

(** ** Properties of the transforms *)

Module NttTheory.
Import Params Poly Reduce Ntt NttRec ReduceTheory.

(** *** Lists *)

Lemma map2_length f xs : forall ys,
  length (map2 f xs ys) = Nat.min (length xs) (length ys).
Proof.
  induction xs as [|x xs IH]; intros [|y ys]; cbn [map2 length Nat.min]; auto.
Qed.

Lemma nth_map2 f xs : forall ys j,
  (j < length xs)%nat -> (j < length ys)%nat ->
  nth j (map2 f xs ys) 0 = f (nth j xs 0) (nth j ys 0).
Proof.
  induction xs as [|x xs IH]; intros [|y ys] [|j]; cbn [map2 length nth];
    intros; try lia; auto.
  apply IH; lia.
Qed.

Lemma firstn_app_exact {A} (n : nat) (xs ys : list A) :
  length xs = n -> firstn n (xs ++ ys) = xs.
Proof.
  intros <-. rewrite firstn_app, Nat.sub_diag, firstn_all. cbn [firstn].
  apply app_nil_r.
Qed.

Lemma skipn_app_exact {A} (n : nat) (xs ys : list A) :
  length xs = n -> skipn n (xs ++ ys) = ys.
Proof.
  intros <-. rewrite skipn_app, Nat.sub_diag, skipn_all. reflexivity.
Qed.

Lemma firstn_app_le {A} (n : nat) (xs ys : list A) :
  (n <= length xs)%nat -> firstn n (xs ++ ys) = firstn n xs.
Proof.
  intros H. rewrite firstn_app. replace (n - length xs)%nat with O by lia.
  cbn [firstn]. apply app_nil_r.
Qed.

Lemma skipn_app_le {A} (n : nat) (xs ys : list A) :
  (n <= length xs)%nat -> skipn n (xs ++ ys) = skipn n xs ++ ys.
Proof.
  intros H. rewrite skipn_app. replace (n - length xs)%nat with O by lia.
  reflexivity.
Qed.

Lemma firstn_firstn_half {A} (n : nat) (xs : list A) :
  firstn n (firstn (2 * n) xs) = firstn n xs.
Proof. rewrite firstn_firstn. f_equal. lia. Qed.

Lemma skipn_firstn_half {A} (n : nat) (xs : list A) :
  skipn n (firstn (2 * n) xs) = firstn n (skipn n xs).
Proof. rewrite skipn_firstn_comm. f_equal. lia. Qed.

Lemma skipn_skipn_half {A} (n : nat) (xs : list A) :
  skipn n (skipn n xs) = skipn (2 * n) xs.
Proof. rewrite skipn_skipn. f_equal. lia. Qed.

Lemma ntt_block_length zeta len blk :
  length blk = (2 * len)%nat -> length (ntt_block zeta len blk) = (2 * len)%nat.
Proof.
  intros H. unfold ntt_block.
  rewrite length_app, !map2_length, length_firstn, length_skipn. lia.
Qed.

Lemma invntt_block_length zeta len blk :
  length blk = (2 * len)%nat -> length (invntt_block zeta len blk) = (2 * len)%nat.
Proof.
  intros H. unfold invntt_block.
  rewrite length_app, !map2_length, length_firstn, length_skipn. lia.
Qed.

Lemma ntt_rec_length l : forall idx a,
  length a = (2 ^ l)%nat -> length (ntt_rec l idx a) = (2 ^ l)%nat.
Proof.
  induction l as [|l IH]; intros idx a H; [exact H|].
  cbn [ntt_rec]. rewrite Nat.pow_succ_r' in *.
  pose proof (ntt_block_length (zetas idx) (2 ^ l) a H) as Hb.
  rewrite length_app, !IH; [lia| |].
  - rewrite length_skipn. lia.
  - rewrite length_firstn. lia.
Qed.

Lemma invntt_rec_length l : forall idx x,
  length x = (2 ^ l)%nat -> length (invntt_rec l idx x) = (2 ^ l)%nat.
Proof.
  induction l as [|l IH]; intros idx x H; [exact H|].
  cbn [invntt_rec]. rewrite Nat.pow_succ_r' in *.
  apply invntt_block_length.
  rewrite length_app, !IH; [lia| |].
  - rewrite length_skipn. lia.
  - rewrite length_firstn. lia.
Qed.

(** *** The loops compute the recursive form *)

Lemma ntt_layer_fst len n : forall k a, fst (ntt_layer len n k a) = (k + n)%nat.
Proof.
  induction n as [|n IH]; intros k a; cbn [ntt_layer].
  - cbn. lia.
  - specialize (IH (S k) (skipn (2 * len) a)).
    destruct (ntt_layer len n (S k) (skipn (2 * len) a)). cbn [fst] in *. lia.
Qed.

Lemma ntt_layer_length len n : forall k a,
  length a = (n * (2 * len))%nat ->
  length (snd (ntt_layer len n k a)) = (n * (2 * len))%nat.
Proof.
  induction n as [|n IH]; intros k a H; cbn [ntt_layer].
  - exact H.
  - specialize (IH (S k) (skipn (2 * len) a)).
    destruct (ntt_layer len n (S k) (skipn (2 * len) a)) as [k' rest].
    cbn [snd] in *. rewrite length_app, ntt_block_length, IH.
    + lia.
    + rewrite length_skipn. lia.
    + rewrite length_firstn. lia.
Qed.

Lemma ntt_layer_blocks l n : forall k a,
  length a = (n * 2 ^ S l)%nat ->
  ntt_blocks l (2 * S k) (2 * n) (snd (ntt_layer (2 ^ l) n k a))
  = ntt_blocks (S l) (S k) n a.
Proof.
  induction n as [|n IH]; intros k a H; [reflexivity|].
  rewrite Nat.pow_succ_r' in H.
  cbn [ntt_layer].
  specialize (IH (S k) (skipn (2 * 2 ^ l) a)).
  destruct (ntt_layer (2 ^ l) n (S k) (skipn (2 * 2 ^ l) a)) as [k' rest].
  cbn [snd] in *.
  assert (Hb : length (ntt_block (zetas (S k)) (2 ^ l) (firstn (2 * 2 ^ l) a))
               = (2 * 2 ^ l)%nat).
  { apply ntt_block_length. rewrite length_firstn. lia. }
  set (blk := ntt_block (zetas (S k)) (2 ^ l) (firstn (2 * 2 ^ l) a)) in *.
  replace (2 * S n)%nat with (S (S (2 * n))) by lia.
  cbn [ntt_blocks ntt_rec].
  rewrite Nat.pow_succ_r'. fold blk.
  assert (Hs : length (skipn (2 ^ l) blk) = (2 ^ l)%nat)
    by (rewrite length_skipn; lia).
  rewrite (firstn_app_le (2 ^ l) blk rest) by lia.
  rewrite (skipn_app_le (2 ^ l) blk rest) by lia.
  rewrite (firstn_app_exact _ _ _ Hs), (skipn_app_exact _ _ _ Hs).
  rewrite <- app_assoc. do 2 f_equal.
  replace (S (S (2 * S k))) with (2 * S (S k))%nat by lia.
  apply IH. rewrite length_skipn, Nat.pow_succ_r'. lia.
Qed.

Lemma ntt_blocks_0 n : forall idx a, length a = n -> ntt_blocks 0 idx n a = a.
Proof.
  induction n as [|n IH]; intros idx [|x a] H; try discriminate; [reflexivity|].
  cbn [ntt_blocks ntt_rec Nat.pow firstn skipn app]. f_equal. apply IH.
  now injection H.
Qed.

Lemma ntt_loop_blocks l : forall fuel k a,
  (l <= fuel)%nat -> (S k * 2 ^ l = 256)%nat -> length a = 256%nat ->
  ntt_loop fuel (2 ^ l / 2) k a = ntt_blocks l (S k) (S k) a.
Proof.
  induction l as [|l IH]; intros fuel k a Hf Hk Ha.
  - rewrite ntt_blocks_0 by (cbn in Hk; lia).
    destruct fuel; reflexivity.
  - destruct fuel as [|fuel]; [lia|].
    rewrite Nat.pow_succ_r' in *.
    assert (Hlen : (2 * 2 ^ l / 2 = 2 ^ l)%nat)
      by (rewrite Nat.mul_comm; apply Nat.div_mul; lia).
    cbn [ntt_loop]. rewrite Hlen.
    assert (Hpos : (2 ^ l <> 0)%nat) by (apply Nat.pow_nonzero; lia).
    destruct (Nat.eqb_spec (2 ^ l) 0) as [E|_]; [contradiction|].
    assert (Hn : (Z.to_nat N / (2 * 2 ^ l) = S k)%nat).
    { change (Z.to_nat N) with 256%nat. rewrite <- Hk.
      apply Nat.div_mul. lia. }
    rewrite Hn.
    pose proof (ntt_layer_fst (2 ^ l) (S k) k a) as Hfst.
    pose proof (ntt_layer_length (2 ^ l) (S k) k a ltac:(lia)) as Hlength.
    pose proof (ntt_layer_blocks l (S k) k a) as Hblocks.
    rewrite Nat.pow_succ_r' in Hblocks. specialize (Hblocks ltac:(lia)).
    destruct (ntt_layer (2 ^ l) (S k) k a) as [k' a'].
    cbn [fst snd] in *. subst k'.
    rewrite IH; try lia.
    replace (S (k + S k)) with (2 * S k)%nat by lia.
    exact Hblocks.
Qed.

Lemma ntt_is_ntt_rec a : length a = 256%nat -> ntt a = ntt_rec 8 1 a.
Proof.
  intros Ha. unfold ntt.
  change 128%nat with (2 ^ 8 / 2)%nat.
  rewrite ntt_loop_blocks by (auto; reflexivity).
  cbn [ntt_blocks]. rewrite app_nil_r. f_equal.
  change (2 ^ 8)%nat with 256%nat. rewrite <- Ha. apply firstn_all.
Qed.

Lemma invntt_layer_fst len n : forall k a,
  fst (invntt_layer len n k a) = (k - n)%nat.
Proof.
  induction n as [|n IH]; intros k a; cbn [invntt_layer].
  - cbn. lia.
  - specialize (IH (pred k) (skipn (2 * len) a)).
    destruct (invntt_layer len n (pred k) (skipn (2 * len) a)).
    cbn [fst] in *. lia.
Qed.

Lemma invntt_blocks_length l n : forall idx x,
  length x = (n * 2 ^ l)%nat ->
  length (invntt_blocks l idx n x) = (n * 2 ^ l)%nat.
Proof.
  induction n as [|n IH]; intros idx x H; [reflexivity|].
  cbn [invntt_blocks]. rewrite length_app, invntt_rec_length, IH.
  - lia.
  - rewrite length_skipn. lia.
  - rewrite length_firstn. lia.
Qed.

Lemma invntt_layer_blocks l n : forall k x,
  length x = (n * 2 ^ S l)%nat -> (n <= k)%nat ->
  snd (invntt_layer (2 ^ l) n k (invntt_blocks l (2 * k - 1) (2 * n) x))
  = invntt_blocks (S l) (pred k) n x.
Proof.
  induction n as [|n IH]; intros k x H Hk; [reflexivity|].
  rewrite Nat.pow_succ_r' in H.
  replace (2 * S n)%nat with (S (S (2 * n))) by lia.
  cbn [invntt_blocks invntt_layer].
  assert (H1 : length (invntt_rec l (2 * k - 1) (firstn (2 ^ l) x)) = (2 ^ l)%nat).
  { apply invntt_rec_length. rewrite length_firstn. lia. }
  assert (H2 : length (invntt_rec l (pred (2 * k - 1))
                         (firstn (2 ^ l) (skipn (2 ^ l) x))) = (2 ^ l)%nat).
  { apply invntt_rec_length. rewrite length_firstn, length_skipn. lia. }
  rewrite app_assoc.
  rewrite firstn_app_exact by (rewrite length_app; lia).
  rewrite skipn_app_exact by (rewrite length_app; lia).
  rewrite skipn_skipn_half.
  specialize (IH (pred k) (skipn (2 * 2 ^ l) x)).
  replace (pred (pred (2 * k - 1))) with (2 * pred k - 1)%nat by lia.
  destruct (invntt_layer (2 ^ l) n (pred k)
              (invntt_blocks l (2 * pred k - 1) (2 * n) (skipn (2 * 2 ^ l) x)))
    as [k' rest].
  cbn [snd] in *.
  rewrite IH by (try rewrite length_skipn, Nat.pow_succ_r'; lia).
  f_equal.
  cbn [invntt_rec]. rewrite Nat.pow_succ_r'.
  rewrite firstn_firstn_half, skipn_firstn_half.
  replace (S (2 * pred k)) with (2 * k - 1)%nat by lia.
  replace (2 * pred k)%nat with (pred (2 * k - 1)) by lia.
  reflexivity.
Qed.

Lemma invntt_blocks_0 n : forall idx x,
  length x = n -> invntt_blocks 0 idx n x = x.
Proof.
  induction n as [|n IH]; intros idx [|y x] H; try discriminate; [reflexivity|].
  cbn [invntt_blocks invntt_rec Nat.pow firstn skipn app]. f_equal. apply IH.
  now injection H.
Qed.

Lemma invntt_loop_blocks d : forall l fuel k x,
  (l + d = 8)%nat -> (d <= fuel)%nat -> (k * 2 ^ l = 256)%nat ->
  length x = 256%nat ->
  invntt_loop fuel (2 ^ l) k (invntt_blocks l (2 * k - 1) k x)
  = invntt_rec 8 1 x.
Proof.
  induction d as [|d IH]; intros l fuel k x Hl Hf Hk Hx.
  - replace l with 8%nat in * by lia.
    change (2 ^ 8)%nat with 256%nat in *.
    replace k with 1%nat by lia.
    cbn [invntt_blocks Nat.mul Nat.add Nat.sub].
    change (2 ^ 8)%nat with 256%nat.
    rewrite app_nil_r, <- Hx, firstn_all.
    destruct fuel; [reflexivity|]. cbn [invntt_loop].
    change (Z.to_nat N) with 256%nat. rewrite Hx. reflexivity.
  - destruct fuel as [|fuel]; [lia|].
    cbn [invntt_loop]. change (Z.to_nat N) with 256%nat.
    assert (Hpos : (0 < 2 ^ l)%nat)
      by (apply Nat.neq_0_lt_0, Nat.pow_nonzero; lia).
    assert (Hlt : (2 ^ l < 256)%nat).
    { change 256%nat with (2 ^ 8)%nat. apply Nat.pow_lt_mono_r; lia. }
    destruct (Nat.ltb_spec (2 ^ l) 256) as [_|]; [|lia].
    (* k is even *)
    assert (Hev : exists n, k = (2 * n)%nat).
    { exists (2 ^ (7 - l) * 1)%nat.
      assert (E : (2 ^ (7 - l) * 2 * 2 ^ l = 256)%nat).
      { rewrite <- Nat.mul_assoc, <- Nat.pow_succ_r', <- Nat.pow_add_r.
        replace (7 - l + S l)%nat with 8%nat by lia. reflexivity. }
      nia. }
    destruct Hev as [n ->].
    assert (Hn : (256 / (2 * 2 ^ l) = n)%nat).
    { rewrite <- Hk. replace (2 * n * 2 ^ l)%nat with (n * (2 * 2 ^ l))%nat by lia.
      apply Nat.div_mul. lia. }
    rewrite Hn.
    pose proof (invntt_layer_fst (2 ^ l) n (2 * n)
                  (invntt_blocks l (2 * (2 * n) - 1) (2 * n) x)) as Hfst.
    pose proof (invntt_layer_blocks l n (2 * n) x) as Hblocks.
    rewrite Nat.pow_succ_r' in Hblocks.
    specialize (Hblocks ltac:(lia) ltac:(lia)).
    destruct (invntt_layer (2 ^ l) n (2 * n)
                (invntt_blocks l (2 * (2 * n) - 1) (2 * n) x)) as [k' x'].
    cbn [fst snd] in *. subst k' x'.
    replace (2 * n - n)%nat with n by lia.
    replace (pred (2 * n)) with (2 * n - 1)%nat by lia.
    rewrite <- Nat.pow_succ_r'.
    apply IH; try lia. rewrite Nat.pow_succ_r'. lia.
Qed.

Lemma invntt_loop_is_invntt_rec x :
  length x = 256%nat -> invntt_loop 8 1 256 x = invntt_rec 8 1 x.
Proof.
  intros Hx.
  rewrite <- (invntt_loop_blocks 8 0 8 256 x) by (auto; reflexivity).
  rewrite invntt_blocks_0 by exact Hx. reflexivity.
Qed.

(** *** The table *)

Lemma zetas_table_bound :
  forallb (fun z => (- 2 ^ 22 <=? z) && (z <=? 2 ^ 22)) zetas_table = true.
Proof. vm_compute. reflexivity. Qed.

Lemma zetas_bound k : - 2 ^ 22 <= zetas k <= 2 ^ 22.
Proof.
  unfold zetas.
  destruct (nth_in_or_default k zetas_table 0) as [Hin| ->]; [|lia].
  pose proof zetas_table_bound as H. rewrite forallb_forall in H.
  apply H in Hin. apply andb_true_iff in Hin. lia.
Qed.

Lemma zetas_table_paired :
  forallb (fun e =>
    forallb (fun b => zetas_inverse (2 ^ e + b) (2 * 2 ^ e - 1 - b)) (seq 0 (2 ^ e)))
    (seq 0 8) = true.
Proof. vm_compute. reflexivity. Qed.

Lemma zetas_paired e i j :
  (e < 8)%nat -> paired e i j -> cong (zetas i * (- zetas j) * RINV * RINV) 1.
Proof.
  intros He [Hi Hj].
  pose proof zetas_table_paired as H. rewrite forallb_forall in H.
  specialize (H e ltac:(apply in_seq; lia)).
  rewrite forallb_forall in H.
  specialize (H (i - 2 ^ e)%nat ltac:(apply in_seq; lia)).
  replace (2 ^ e + (i - 2 ^ e))%nat with i in H by lia.
  replace (2 * 2 ^ e - 1 - (i - 2 ^ e))%nat with j in H by lia.
  unfold zetas_inverse in H. apply Z.eqb_eq in H.
  unfold cong. rewrite H. reflexivity.
Qed.

Lemma paired_left e i j : paired e i j -> paired (S e) (2 * i) (S (2 * j)).
Proof. unfold paired. rewrite Nat.pow_succ_r'. lia. Qed.

Lemma paired_right e i j : paired e i j -> paired (S e) (S (2 * i)) (2 * j).
Proof. unfold paired. rewrite Nat.pow_succ_r'. lia. Qed.

Lemma paired_top : paired 0 1 1.
Proof. unfold paired. cbn. lia. Qed.

Lemma wrap32_neg_zetas k : wrap32 (- zetas k) = - zetas k.
Proof. pose proof (zetas_bound k). apply wrap32_small. lia. Qed.

(** *** One Montgomery multiplication *)

Lemma montgomery_mul_spec z y :
  - 2 ^ 22 <= z <= 2 ^ 22 -> - (256 * (Q - 1)) <= y <= 256 * (Q - 1) ->
  - (Q - 1) <= montgomery_reduce (wrap64 (z * y)) <= Q - 1
  /\ cong (montgomery_reduce (wrap64 (z * y))) (z * y * RINV).
Proof.
  intros Hz Hy. unfold Q in *.
  assert (Hzy : - (2 ^ 22 * (256 * 8380416)) <= z * y <= 2 ^ 22 * (256 * 8380416)) by nia.
  rewrite wrap64_small by lia.
  destruct (montgomery_reduce_spec (z * y)) as [Hr Hc]; [unfold Q; lia|].
  unfold Q in Hr. split; [lia | exact Hc].
Qed.

(** *** Elements of a block after one butterfly pass *)

Lemma nth_ntt_block_lo zeta len blk j :
  length blk = (2 * len)%nat -> (j < len)%nat ->
  nth j (ntt_block zeta len blk) 0
  = wrap32 (nth j blk 0 + montgomery_reduce (wrap64 (zeta * nth (len + j) blk 0))).
Proof.
  intros Hl Hj. unfold ntt_block.
  rewrite app_nth1 by (rewrite map2_length, length_firstn, length_skipn; lia).
  rewrite nth_map2 by (rewrite ?length_firstn, ?length_skipn; lia).
  rewrite nth_firstn, nth_skipn.
  destruct (Nat.ltb_spec j len); [reflexivity | lia].
Qed.

Lemma nth_ntt_block_hi zeta len blk j :
  length blk = (2 * len)%nat -> (j < len)%nat ->
  nth (len + j) (ntt_block zeta len blk) 0
  = wrap32 (nth j blk 0 - montgomery_reduce (wrap64 (zeta * nth (len + j) blk 0))).
Proof.
  intros Hl Hj. unfold ntt_block.
  set (lo := map2 _ (firstn len blk) (skipn len blk)).
  assert (Hlo : length lo = len)
    by (unfold lo; rewrite map2_length, length_firstn, length_skipn; lia).
  rewrite <- Hlo at 1. rewrite app_nth2_plus.
  rewrite nth_map2 by (rewrite ?length_firstn, ?length_skipn; lia).
  rewrite nth_firstn, nth_skipn.
  destruct (Nat.ltb_spec j len); [reflexivity | lia].
Qed.

Lemma nth_invntt_block_lo zeta len blk j :
  length blk = (2 * len)%nat -> (j < len)%nat ->
  nth j (invntt_block zeta len blk) 0
  = wrap32 (nth j blk 0 + nth (len + j) blk 0).
Proof.
  intros Hl Hj. unfold invntt_block.
  rewrite app_nth1 by (rewrite map2_length, length_firstn, length_skipn; lia).
  rewrite nth_map2 by (rewrite ?length_firstn, ?length_skipn; lia).
  rewrite nth_firstn, nth_skipn.
  destruct (Nat.ltb_spec j len); [reflexivity | lia].
Qed.

Lemma nth_invntt_block_hi zeta len blk j :
  length blk = (2 * len)%nat -> (j < len)%nat ->
  nth (len + j) (invntt_block zeta len blk) 0
  = montgomery_reduce (wrap64 (zeta * wrap32 (nth j blk 0 - nth (len + j) blk 0))).
Proof.
  intros Hl Hj. unfold invntt_block.
  set (lo := map2 _ (firstn len blk) (skipn len blk)).
  assert (Hlo : length lo = len)
    by (unfold lo; rewrite map2_length, length_firstn, length_skipn; lia).
  rewrite <- Hlo at 1. rewrite app_nth2_plus.
  rewrite nth_map2 by (rewrite ?length_firstn, ?length_skipn; lia).
  rewrite nth_firstn, nth_skipn.
  destruct (Nat.ltb_spec j len); [reflexivity | lia].
Qed.

(** Splitting an index of a block of length [2 * len]. *)
Lemma index_split (len j : nat) :
  (j < 2 * len)%nat ->
  (j < len)%nat \/ exists j', (j' < len)%nat /\ j = (len + j')%nat.
Proof.
  intros H. destruct (Nat.lt_ge_cases j len) as [Hlt|Hge]; [now left|].
  right. exists (j - len)%nat. lia.
Qed.

Lemma cong_eq x y : x = y -> cong x y.
Proof. now intros ->. Qed.

(** Powers of two at the levels of the recursion. *)
Lemma level_bounds l e :
  (l + e = 8)%nat ->
  1 <= 2 ^ Z.of_nat l <= 256 /\ 2 ^ Z.of_nat l * (Z.of_nat e + 1) <= 256.
Proof.
  intros H.
  assert (E : 2 ^ Z.of_nat l * 2 ^ Z.of_nat e = 256).
  { rewrite <- Z.pow_add_r, <- Nat2Z.inj_add, H by lia. reflexivity. }
  pose proof (Z.pow_gt_lin_r 2 (Z.of_nat e) ltac:(lia) ltac:(lia)).
  pose proof (Z.pow_pos_nonneg 2 (Z.of_nat l) ltac:(lia) ltac:(lia)).
  pose proof (Z.pow_pos_nonneg 2 (Z.of_nat e) ltac:(lia) ltac:(lia)).
  nia.
Qed.

Lemma pow2_succ l : 2 ^ Z.of_nat (S l) = 2 * 2 ^ Z.of_nat l.
Proof. rewrite Nat2Z.inj_succ, Z.pow_succ_r by lia. reflexivity. Qed.

(** One butterfly pass of the forward transform, element by element. *)
Lemma ntt_block_elems zeta n a B p :
  length a = (2 * n)%nat -> - 2 ^ 22 <= zeta <= 2 ^ 22 ->
  0 <= B <= 8 * (Q - 1) ->
  (forall p, (p < 2 * n)%nat -> within B (nth p a 0)) ->
  (p < n)%nat ->
  exists t,
    within (Q - 1) t
    /\ cong t (zeta * nth (n + p) a 0 * RINV)
    /\ nth p (ntt_block zeta n a) 0 = nth p a 0 + t
    /\ nth (n + p) (ntt_block zeta n a) 0 = nth p a 0 - t.
Proof.
  intros Hl Hz HB Ha Hp.
  pose proof (Ha p ltac:(lia)) as H1.
  pose proof (Ha (n + p)%nat ltac:(lia)) as H2.
  unfold within in *.
  destruct (montgomery_mul_spec zeta (nth (n + p) a 0) Hz) as [Ht Hc];
    [unfold Q in *; lia|].
  exists (montgomery_reduce (wrap64 (zeta * nth (n + p) a 0))).
  rewrite nth_ntt_block_lo, nth_ntt_block_hi by assumption.
  unfold Q in *.
  rewrite !wrap32_small by lia. auto.
Qed.

(** The inverse transform applied to the forward transform of a block of
    length [2^l]: the first element is doubled [l] times exactly, the others
    modulo [Q] and within [2^l * (Q - 1)]. *)
Lemma invntt_rec_ntt_rec l : forall e i j a,
  (l + e = 8)%nat -> paired e i j -> length a = (2 ^ l)%nat ->
  (forall p, (p < 2 ^ l)%nat -> within ((Z.of_nat e + 1) * (Q - 1)) (nth p a 0)) ->
  let r := invntt_rec l j (ntt_rec l i a) in
  nth 0 r 0 = 2 ^ Z.of_nat l * nth 0 a 0
  /\ (forall p, (0 < p < 2 ^ l)%nat ->
        within (2 ^ Z.of_nat l * (Q - 1)) (nth p r 0))
  /\ (forall p, (p < 2 ^ l)%nat ->
        cong (nth p r 0) (2 ^ Z.of_nat l * nth p a 0)).
Proof.
  induction l as [|l IH]; intros e i j a Hle Hij Hlen Ha r.
  - subst r. cbn [invntt_rec ntt_rec]. change (2 ^ Z.of_nat 0) with 1.
    change (2 ^ 0)%nat with 1%nat.
    split; [lia|]. split; [intros p Hp; lia|].
    intros p _. now rewrite Z.mul_1_l.
  - pose proof (level_bounds (S l) e Hle) as [HP1 HP2].
    rewrite pow2_succ in *.
    set (P := 2 ^ Z.of_nat l) in *.
    rewrite Nat.pow_succ_r' in *.
    set (n := (2 ^ l)%nat) in *.
    assert (Hn : (0 < n)%nat)
      by (apply Nat.neq_0_lt_0, Nat.pow_nonzero; lia).
    pose proof (zetas_bound i) as Hzi.
    pose proof (zetas_bound j) as Hzj.
    assert (HB : 0 <= (Z.of_nat e + 1) * (Q - 1) <= 8 * (Q - 1))
      by (unfold Q; nia).
    pose proof (fun p => ntt_block_elems (zetas i) n a _ p Hlen Hzi HB Ha) as Hb.
    pose proof (ntt_block_length (zetas i) n a Hlen) as Hblen.
    set (b := ntt_block (zetas i) n a) in *.
    assert (Hl1 : length (firstn n b) = n) by (rewrite length_firstn; lia).
    assert (Hl2 : length (skipn n b) = n) by (rewrite length_skipn; lia).
    (* the two halves, transformed and transformed back *)
    assert (E : r = invntt_block (- zetas j) n
                      (invntt_rec l (S (2 * j)) (ntt_rec l (2 * i) (firstn n b))
                       ++ invntt_rec l (2 * j) (ntt_rec l (S (2 * i)) (skipn n b)))).
    { subst r. cbn [invntt_rec ntt_rec]. fold n. fold b.
      rewrite wrap32_neg_zetas.
      rewrite firstn_app_exact, skipn_app_exact
        by (apply ntt_rec_length; assumption).
      reflexivity. }
    assert (Ha1 : forall p, (p < n)%nat ->
              within ((Z.of_nat (S e) + 1) * (Q - 1)) (nth p (firstn n b) 0)).
    { intros p Hp. destruct (Hb p Hp) as (t & Ht & _ & E1 & _).
      rewrite nth_firstn. destruct (Nat.ltb_spec p n); [|lia].
      rewrite E1. specialize (Ha p ltac:(lia)).
      unfold within, Q in *. lia. }
    assert (Ha2 : forall p, (p < n)%nat ->
              within ((Z.of_nat (S e) + 1) * (Q - 1)) (nth p (skipn n b) 0)).
    { intros p Hp. destruct (Hb p Hp) as (t & Ht & _ & _ & E2).
      rewrite nth_skipn, E2. specialize (Ha p ltac:(lia)).
      unfold within, Q in *. lia. }
    destruct (IH (S e) (2 * i)%nat (S (2 * j)) (firstn n b)
                ltac:(lia) (paired_left _ _ _ Hij) Hl1 Ha1) as (U0 & Ub & Uc).
    destruct (IH (S e) (S (2 * i)) (2 * j)%nat (skipn n b)
                ltac:(lia) (paired_right _ _ _ Hij) Hl2 Ha2) as (V0 & Vb & Vc).
    fold P in U0, Ub, Uc, V0, Vb, Vc. fold n in Ub, Uc, Vb, Vc.
    set (u := invntt_rec l (S (2 * j)) (ntt_rec l (2 * i) (firstn n b))) in *.
    set (v := invntt_rec l (2 * j) (ntt_rec l (S (2 * i)) (skipn n b))) in *.
    assert (Hu : length u = n)
      by (apply invntt_rec_length, ntt_rec_length; assumption).
    assert (Hv : length v = n)
      by (apply invntt_rec_length, ntt_rec_length; assumption).
    assert (Huv : length (u ++ v) = (2 * n)%nat) by (rewrite length_app; lia).
    (* what is known about position p of both halves *)
    assert (Hp : forall p, (p < n)%nat ->
              exists t, within (Q - 1) t
                /\ cong t (zetas i * nth (n + p) a 0 * RINV)
                /\ cong (nth p u 0) (P * (nth p a 0 + t))
                /\ cong (nth p v 0) (P * (nth p a 0 - t))
                /\ within (256 * (Q - 1)) (nth p u 0 + nth p v 0)
                /\ within (2 * P * (Q - 1)) (nth p u 0 - nth p v 0)
                /\ (p = 0%nat -> nth p u 0 + nth p v 0 = 2 * P * nth p a 0)
                /\ (p <> 0%nat -> within (2 * P * (Q - 1)) (nth p u 0 + nth p v 0))).
    { intros p Hpn. destruct (Hb p Hpn) as (t & Ht & Hct & E1 & E2).
      exists t. split; [exact Ht|]. split; [exact Hct|].
      assert (F1 : nth p (firstn n b) 0 = nth p a 0 + t).
      { rewrite nth_firstn. destruct (Nat.ltb_spec p n); [exact E1|lia]. }
      assert (F2 : nth p (skipn n b) 0 = nth p a 0 - t).
      { rewrite nth_skipn. exact E2. }
      split; [rewrite <- F1; now apply Uc|].
      split; [rewrite <- F2; now apply Vc|].
      specialize (Ha p ltac:(lia)).
      destruct p as [|p].
      - rewrite U0, V0, F1, F2. unfold within, Q in *.
        split; [nia|]. split; [nia|]. split; [intros _; ring | congruence].
      - specialize (Ub (S p) ltac:(lia)). specialize (Vb (S p) ltac:(lia)).
        unfold within, Q in *.
        split; [lia|]. split; [lia|]. split; [discriminate | intros _; lia]. }
    rewrite E.
    split; [|split].
    + destruct (Hp 0%nat Hn) as (t & _ & _ & _ & _ & Hs & _ & H0 & _).
      rewrite nth_invntt_block_lo by assumption.
      rewrite app_nth1 by lia.
      rewrite <- Hu at 1. rewrite app_nth2_plus.
      specialize (H0 eq_refl). unfold within, Q in *.
      rewrite wrap32_small by lia. lia.
    + intros p Hpr.
      destruct (index_split n p ltac:(lia)) as [Hlt | (p' & Hlt & ->)].
      * destruct (Hp p Hlt) as (t & _ & _ & _ & _ & Hs & _ & _ & Hs').
        rewrite nth_invntt_block_lo by assumption.
        rewrite app_nth1 by lia.
        rewrite <- Hu at 1. rewrite app_nth2_plus.
        specialize (Hs' ltac:(lia)).
        unfold within, Q in *. rewrite wrap32_small by lia. lia.
      * destruct (Hp p' Hlt) as (t & _ & _ & _ & _ & _ & Hd & _).
        rewrite nth_invntt_block_hi by assumption.
        rewrite app_nth1 by lia.
        rewrite <- Hu at 1. rewrite app_nth2_plus.
        unfold within in Hd.
        rewrite wrap32_small by (unfold Q in *; lia).
        destruct (montgomery_mul_spec (- zetas j) (nth p' u 0 - nth p' v 0))
          as [Hm _]; [lia | unfold Q in *; lia |].
        unfold within, Q in *. lia.
    + intros p Hpr.
      destruct (index_split n p ltac:(lia)) as [Hlt | (p' & Hlt & ->)].
      * destruct (Hp p Hlt) as (t & _ & _ & Cu & Cv & Hs & _).
        rewrite nth_invntt_block_lo by assumption.
        rewrite app_nth1 by lia.
        rewrite <- Hu at 1. rewrite app_nth2_plus.
        unfold within in Hs. rewrite wrap32_small by (unfold Q in *; lia).
        rewrite Cu, Cv. apply cong_eq; ring.
      * destruct (Hp p' Hlt) as (t & _ & Ct & Cu & Cv & _ & Hd & _).
        rewrite nth_invntt_block_hi by assumption.
        rewrite app_nth1 by lia.
        rewrite <- Hu at 1. rewrite app_nth2_plus.
        unfold within in Hd.
        rewrite wrap32_small by (unfold Q in *; lia).
        destruct (montgomery_mul_spec (- zetas j) (nth p' u 0 - nth p' v 0))
          as [_ Hm]; [lia | unfold Q in *; lia |].
        rewrite Hm, Cu, Cv.
        transitivity (2 * P * (t * - zetas j * RINV)).
        { apply cong_eq; ring. }
        rewrite Ct.
        transitivity (2 * P * nth (n + p') a 0
                      * (zetas i * - zetas j * RINV * RINV)).
        { apply cong_eq; ring. }
        rewrite (zetas_paired e i j) by (assumption || lia).
        now rewrite Z.mul_1_r.
Qed.



(** One more layer of the inverse transform, element by element. *)
Lemma invntt_rec_succ l e j x :
  (S l + e = 8)%nat -> length x = (2 * 2 ^ l)%nat ->
  let n := (2 ^ l)%nat in
  let u := invntt_rec l (S (2 * j)) (firstn n x) in
  let v := invntt_rec l (2 * j) (skipn n x) in
  (forall p, (p < n)%nat -> within (2 ^ Z.of_nat l * (Q - 1)) (nth p u 0)) ->
  (forall p, (p < n)%nat -> within (2 ^ Z.of_nat l * (Q - 1)) (nth p v 0)) ->
  forall p, (p < n)%nat ->
    nth p (invntt_rec (S l) j x) 0 = nth p u 0 + nth p v 0
    /\ within (Q - 1) (nth (n + p) (invntt_rec (S l) j x) 0)
    /\ cong (nth (n + p) (invntt_rec (S l) j x) 0)
            (- zetas j * (nth p u 0 - nth p v 0) * RINV).
Proof.
  intros Hle Hlen n u v Hu Hv p Hp.
  pose proof (level_bounds (S l) e Hle) as [HP1 HP2].
  rewrite pow2_succ in *.
  pose proof (zetas_bound j) as Hzj.
  assert (Lu : length u = n).
  { apply invntt_rec_length. rewrite length_firstn. fold n. lia. }
  assert (Lv : length v = n).
  { apply invntt_rec_length. rewrite length_skipn. fold n. lia. }
  assert (Luv : length (u ++ v) = (2 * n)%nat) by (rewrite length_app; lia).
  cbn [invntt_rec]. fold n. fold u. fold v. rewrite wrap32_neg_zetas.
  rewrite nth_invntt_block_lo, nth_invntt_block_hi by assumption.
  assert (E1 : nth p (u ++ v) 0 = nth p u 0) by (apply app_nth1; lia).
  assert (E2 : nth (n + p) (u ++ v) 0 = nth p v 0)
    by (rewrite <- Lu at 1; apply app_nth2_plus).
  rewrite E1, E2.
  specialize (Hu p Hp). specialize (Hv p Hp). unfold within in *.
  rewrite !wrap32_small by (unfold Q in *; lia).
  destruct (montgomery_mul_spec (- zetas j) (nth p u 0 - nth p v 0))
    as [Hm Hc]; [lia | unfold Q in *; lia |].
  auto.
Qed.

(** The inverse transform of a block of reduced coefficients grows them by
    at most the length of the block. *)
Lemma invntt_rec_bound l : forall e j x,
  (l + e = 8)%nat -> length x = (2 ^ l)%nat ->
  (forall p, (p < 2 ^ l)%nat -> within (Q - 1) (nth p x 0)) ->
  forall p, (p < 2 ^ l)%nat ->
    within (2 ^ Z.of_nat l * (Q - 1)) (nth p (invntt_rec l j x) 0).
Proof.
  induction l as [|l IH]; intros e j x Hle Hlen Hx p Hp.
  - cbn [invntt_rec]. change (2 ^ Z.of_nat 0) with 1.
    rewrite Z.mul_1_l. now apply Hx.
  - pose proof (level_bounds (S l) e Hle) as [HP1 HP2].
    rewrite Nat.pow_succ_r' in *.
    assert (Hu : forall p, (p < 2 ^ l)%nat ->
              within (2 ^ Z.of_nat l * (Q - 1))
                (nth p (invntt_rec l (S (2 * j)) (firstn (2 ^ l) x)) 0)).
    { apply (IH (S e)); [lia | rewrite length_firstn; lia |].
      intros q Hq. rewrite nth_firstn.
      destruct (Nat.ltb_spec q (2 ^ l)); [apply Hx|]; lia. }
    assert (Hv : forall p, (p < 2 ^ l)%nat ->
              within (2 ^ Z.of_nat l * (Q - 1))
                (nth p (invntt_rec l (2 * j) (skipn (2 ^ l) x)) 0)).
    { apply (IH (S e)); [lia | rewrite length_skipn; lia |].
      intros q Hq. rewrite nth_skipn. apply Hx. lia. }
    pose proof (invntt_rec_succ l e j x Hle Hlen Hu Hv) as Hs.
    cbv zeta in Hs. rewrite pow2_succ in *.
    destruct (index_split (2 ^ l) p Hp) as [Hlt | (p' & Hlt & ->)].
    + destruct (Hs p Hlt) as (-> & _).
      specialize (Hu p Hlt). specialize (Hv p Hlt).
      unfold within, Q in *. lia.
    + destruct (Hs p' Hlt) as (_ & Hb & _).
      unfold within, Q in *. lia.
Qed.

(** The forward transform applied to a multiple [s] of the inverse transform
    of a block of length [2^l] multiplies the block by [s * 2^l] modulo
    [Q]. *)
Lemma ntt_rec_invntt_rec l : forall e i j x s y,
  (l + e = 8)%nat -> paired e i j ->
  length x = (2 ^ l)%nat -> length y = (2 ^ l)%nat ->
  (forall p, (p < 2 ^ l)%nat -> within (Q - 1) (nth p x 0)) ->
  (forall p, (p < 2 ^ l)%nat -> within ((Z.of_nat e + 1) * (Q - 1)) (nth p y 0)) ->
  (forall p, (p < 2 ^ l)%nat -> cong (nth p y 0) (s * nth p (invntt_rec l j x) 0)) ->
  forall p, (p < 2 ^ l)%nat ->
    cong (nth p (ntt_rec l i y) 0) (s * 2 ^ Z.of_nat l * nth p x 0).
Proof.
  induction l as [|l IH]; intros e i j x s y Hle Hij Lx Ly Hx Hy Hc p Hp.
  - cbn [ntt_rec]. change (2 ^ Z.of_nat 0) with 1. rewrite Z.mul_1_r.
    now apply Hc.
  - pose proof (level_bounds (S l) e Hle) as [HP1 HP2].
    rewrite pow2_succ in *.
    set (P := 2 ^ Z.of_nat l) in *.
    rewrite Nat.pow_succ_r' in *.
    pose proof (zetas_bound i) as Hzi.
    assert (HB : 0 <= (Z.of_nat e + 1) * (Q - 1) <= 8 * (Q - 1))
      by (unfold Q; nia).
    pose proof (fun p => ntt_block_elems (zetas i) (2 ^ l) y _ p Ly Hzi HB Hy) as Hb.
    pose proof (ntt_block_length (zetas i) (2 ^ l) y Ly) as Hblen.
    assert (Hx1 : forall p, (p < 2 ^ l)%nat ->
              within (Q - 1) (nth p (firstn (2 ^ l) x) 0)).
    { intros q Hq. rewrite nth_firstn.
      destruct (Nat.ltb_spec q (2 ^ l)); [apply Hx|]; lia. }
    assert (Hx2 : forall p, (p < 2 ^ l)%nat ->
              within (Q - 1) (nth p (skipn (2 ^ l) x) 0)).
    { intros q Hq. rewrite nth_skipn. apply Hx. lia. }
    assert (Lx1 : length (firstn (2 ^ l) x) = (2 ^ l)%nat)
      by (rewrite length_firstn; lia).
    assert (Lx2 : length (skipn (2 ^ l) x) = (2 ^ l)%nat)
      by (rewrite length_skipn; lia).
    pose proof (invntt_rec_bound l (S e) (S (2 * j)) _ ltac:(lia) Lx1 Hx1) as Hu.
    pose proof (invntt_rec_bound l (S e) (2 * j)%nat _ ltac:(lia) Lx2 Hx2) as Hv.
    pose proof (invntt_rec_succ l e j x Hle Lx Hu Hv) as Hs.
    cbv zeta in Hs.
    set (u := invntt_rec l (S (2 * j)) (firstn (2 ^ l) x)) in *.
    set (v := invntt_rec l (2 * j) (skipn (2 ^ l) x)) in *.
    cbn [ntt_rec].
    set (b := ntt_block (zetas i) (2 ^ l) y) in *.
    assert (Lb1 : length (firstn (2 ^ l) b) = (2 ^ l)%nat)
      by (rewrite length_firstn; lia).
    assert (Lb2 : length (skipn (2 ^ l) b) = (2 ^ l)%nat)
      by (rewrite length_skipn; lia).
    (* position q of the two halves after the butterflies *)
    assert (Hq : forall q, (q < 2 ^ l)%nat ->
              within ((Z.of_nat (S e) + 1) * (Q - 1)) (nth q (firstn (2 ^ l) b) 0)
              /\ within ((Z.of_nat (S e) + 1) * (Q - 1)) (nth q (skipn (2 ^ l) b) 0)
              /\ cong (nth q (firstn (2 ^ l) b) 0) (2 * s * nth q u 0)
              /\ cong (nth q (skipn (2 ^ l) b) 0) (2 * s * nth q v 0)).
    { intros q Hql. destruct (Hb q Hql) as (t & Ht & Ct & E1 & E2).
      destruct (Hs q Hql) as (R1 & _ & R2).
      pose proof (Hc q ltac:(lia)) as C1. rewrite R1 in C1.
      pose proof (Hc (2 ^ l + q)%nat ltac:(lia)) as C2. rewrite R2 in C2.
      pose proof (Hy q ltac:(lia)) as B1.
      rewrite nth_firstn, nth_skipn.
      destruct (Nat.ltb_spec q (2 ^ l)); [|lia].
      rewrite E1, E2.
      assert (Ct' : cong t (s * (nth q u 0 - nth q v 0))).
      { rewrite Ct, C2.
        transitivity (s * (nth q u 0 - nth q v 0)
                      * (zetas i * - zetas j * RINV * RINV)).
        { apply cong_eq; ring. }
        rewrite (zetas_paired e i j) by (assumption || lia).
        now rewrite Z.mul_1_r. }
      split; [unfold within, Q in *; lia|].
      split; [unfold within, Q in *; lia|].
      split.
      - rewrite C1, Ct'. apply cong_eq; ring.
      - rewrite C1, Ct'. apply cong_eq; ring. }
    destruct (index_split (2 ^ l) p Hp) as [Hlt | (p' & Hlt & ->)].
    + rewrite app_nth1 by (rewrite ntt_rec_length; assumption).
      rewrite (IH (S e) (2 * i)%nat (S (2 * j)) (firstn (2 ^ l) x) (2 * s));
        try assumption; try lia.
      * fold P. rewrite nth_firstn.
        destruct (Nat.ltb_spec p (2 ^ l)); [|lia]. apply cong_eq; ring.
      * now apply paired_left.
      * intros q Hql. now apply Hq.
      * intros q Hql. now apply Hq.
    + rewrite <- (ntt_rec_length l (2 * i) (firstn (2 ^ l) b) Lb1) at 1.
      rewrite app_nth2_plus.
      rewrite (IH (S e) (S (2 * i)) (2 * j)%nat (skipn (2 ^ l) x) (2 * s));
        try assumption; try lia.
      * fold P. rewrite nth_skipn. apply cong_eq; ring.
      * now apply paired_right.
      * intros q Hql. now apply Hq.
      * intros q Hql. now apply Hq.
Qed.

Lemma F_spec : cong (F * RINV * 2 ^ Z.of_nat 8) (2 ^ 32).
Proof. vm_compute. reflexivity. Qed.

Lemma F_bound : - 2 ^ 22 <= F <= 2 ^ 22.
Proof. unfold F. lia. Qed.

Lemma nth_invntt_tomont x p :
  length x = 256%nat ->
  nth p (invntt_tomont x) 0
  = montgomery_reduce (wrap64 (F * nth p (invntt_rec 8 1 x) 0)).
Proof.
  intros Hx. unfold invntt_tomont. rewrite invntt_loop_is_invntt_rec by exact Hx.
  change 0 with (montgomery_reduce (wrap64 (F * 0))) at 1.
  apply (map_nth (fun c => montgomery_reduce (wrap64 (F * c)))).
Qed.

Lemma invntt_tomont_length x : length x = 256%nat -> length (invntt_tomont x) = 256%nat.
Proof.
  intros Hx. unfold invntt_tomont.
  rewrite length_map, invntt_loop_is_invntt_rec by exact Hx.
  now apply (invntt_rec_length 8).
Qed.

Lemma ntt_length a : length a = 256%nat -> length (ntt a) = 256%nat.
Proof.
  intros Ha. rewrite ntt_is_ntt_rec by exact Ha. now apply (ntt_rec_length 8).
Qed.

(** C3, as the transforms compute it.  For a polynomial with coefficients in
    (-Q, Q), each coefficient of [invntt_tomont (ntt a)] and of
    [ntt (invntt_tomont a)] is the coefficient of [a] multiplied by the
    Montgomery factor 2^32, modulo [Q]; the output of [invntt_tomont] lies
    in (-Q, Q). *)
Theorem ntt_invntt_tomont_montgomery (a : list Z) (p : nat) :
  length a = Z.to_nat N -> coeffs_in (- (Q - 1)) (Q - 1) a = true ->
  (p < Z.to_nat N)%nat ->
  nth p (invntt_tomont (ntt a)) 0 mod Q = (2 ^ 32 * nth p a 0) mod Q
  /\ nth p (ntt (invntt_tomont a)) 0 mod Q = (2 ^ 32 * nth p a 0) mod Q
  /\ - Q < nth p (invntt_tomont a) 0 < Q.
Proof.
  change (Z.to_nat N) with 256%nat.
  intros Ha Hc Hp.
  assert (Hw : forall q, (q < 2 ^ 8)%nat -> within (Q - 1) (nth q a 0)).
  { intros q Hq. apply (coeffs_in_nth _ _ _ _ Hc). rewrite Ha. exact Hq. }
  change (2 ^ 8)%nat with 256%nat in Hw.
  split; [|split].
  - rewrite nth_invntt_tomont by now apply ntt_length.
    rewrite ntt_is_ntt_rec by exact Ha.
    destruct (invntt_rec_ntt_rec 8 0 1 1 a eq_refl paired_top Ha) as (H0 & Hb & Hm).
    { intros q Hq. change (Z.of_nat 0 + 1) with 1. rewrite Z.mul_1_l. now apply Hw. }
    assert (Hr : within (256 * (Q - 1)) (nth p (invntt_rec 8 1 (ntt_rec 8 1 a)) 0)).
    { destruct p as [|p].
      - rewrite H0. specialize (Hw 0%nat Hp). change (2 ^ Z.of_nat 8) with 256.
        unfold within, Q in *. lia.
      - apply (Hb (S p)). change (2 ^ 8)%nat with 256%nat. lia. }
    destruct (montgomery_mul_spec F _ F_bound Hr) as [_ Hcong].
    fold (cong (montgomery_reduce
                  (wrap64 (F * nth p (invntt_rec 8 1 (ntt_rec 8 1 a)) 0)))
               (2 ^ 32 * nth p a 0)).
    rewrite Hcong, (Hm p Hp), <- F_spec. apply cong_eq. ring.
  - assert (Hy : forall q, (q < 256)%nat ->
              within (Q - 1) (nth q (invntt_tomont a) 0)
              /\ cong (nth q (invntt_tomont a) 0)
                      (F * RINV * nth q (invntt_rec 8 1 a) 0)).
    { intros q Hq. rewrite nth_invntt_tomont by exact Ha.
      pose proof (invntt_rec_bound 8 0 1 a eq_refl Ha Hw q Hq) as Hr.
      change (2 ^ Z.of_nat 8) with 256 in Hr.
      destruct (montgomery_mul_spec F _ F_bound Hr) as [Hb Hcong].
      split; [exact Hb|]. rewrite Hcong.
      generalize (nth q (invntt_rec 8 1 a) 0). intros c.
      apply cong_eq. ring. }
    rewrite ntt_is_ntt_rec by now apply invntt_tomont_length.
    fold (cong (nth p (ntt_rec 8 1 (invntt_tomont a)) 0) (2 ^ 32 * nth p a 0)).
    rewrite (ntt_rec_invntt_rec 8 0 1 1 a (F * RINV) (invntt_tomont a));
      try assumption; try reflexivity.
    + rewrite F_spec. reflexivity.
    + exact paired_top.
    + now apply invntt_tomont_length.
    + intros q Hq. change (Z.of_nat 0 + 1) with 1. rewrite Z.mul_1_l.
      now apply Hy.
    + intros q Hq. now apply Hy.
  - rewrite nth_invntt_tomont by exact Ha.
    pose proof (invntt_rec_bound 8 0 1 a eq_refl Ha Hw p Hp) as Hr.
    change (2 ^ Z.of_nat 8) with 256 in Hr.
    destruct (montgomery_mul_spec F _ F_bound Hr) as [Hb _].
    unfold Q in *. lia.
Qed.

(** The theorem at the polynomial with coefficients 0, 1, ..., 255. *)
Lemma ntt_invntt_tomont_montgomery_witness :
  nth 5 (invntt_tomont (ntt ramp_poly)) 0 mod Q = (2 ^ 32 * nth 5 ramp_poly 0) mod Q
  /\ nth 5 (ntt (invntt_tomont ramp_poly)) 0 mod Q = (2 ^ 32 * nth 5 ramp_poly 0) mod Q
  /\ - Q < nth 5 (invntt_tomont ramp_poly) 0 < Q.
Proof.
  apply (ntt_invntt_tomont_montgomery ramp_poly 5).
  - reflexivity.
  - vm_compute. reflexivity.
  - vm_compute. lia.
Defined.

(** C3 as stated fails: on the reduced polynomial 1, coefficient 0 of either
    composition is 2^32 modulo [Q], which is neither 1 nor -1. *)
Lemma ntt_invntt_tomont_not_identity :
  length unit_poly = Z.to_nat N
  /\ coeffs_in 0 (Q - 1) unit_poly = true
  /\ nth 0 (invntt_tomont (ntt unit_poly)) 0 mod Q <> nth 0 unit_poly 0 mod Q
  /\ nth 0 (invntt_tomont (ntt unit_poly)) 0 mod Q <> (- nth 0 unit_poly 0) mod Q
  /\ nth 0 (ntt (invntt_tomont unit_poly)) 0 mod Q <> nth 0 unit_poly 0 mod Q
  /\ nth 0 (ntt (invntt_tomont unit_poly)) 0 mod Q <> (- nth 0 unit_poly 0) mod Q.
Proof.
  vm_compute. repeat split; discriminate.
Qed.

(** With the seven layers the spec counts (block half lengths 128 down to 2
    forward, 2 up to 128 backward) the composition is no identity either:
    it multiplies by 2^31 modulo [Q]. *)
Example seven_layers_not_identity :
  let a := unit_poly in
  let r := map (fun x => montgomery_reduce (wrap64 (F * x)))
               (invntt_loop 7 2 128 (ntt_loop 7 128 0 a)) in
  nth 0 r 0 mod Q = 2 ^ 31 mod Q /\ nth 0 r 0 mod Q <> 1
  /\ nth 0 r 0 mod Q <> (- 1) mod Q.
Proof. vm_compute. repeat split; discriminate. Qed.

End NttTheory.

(** ** Properties of the rounding *)

Module RoundingTheory.
Import Params Poly Reduce ReduceTheory Rounding.

Lemma power2round_spec a :
  0 <= a < Q ->
  a = fst (power2round a) * 2 ^ D + snd (power2round a)
  /\ - 2 ^ (D - 1) < snd (power2round a) <= 2 ^ (D - 1)
  /\ 0 <= fst (power2round a) < 2 ^ 10.
Proof.
  intros Ha. unfold power2round, D, Q in *. cbn [fst snd].
  change (Z.shiftl 1 (13 - 1)) with 4096.
  rewrite (wrap32_small (a + 4096 - 1)) by lia.
  rewrite Z.shiftr_div_pow2, Z.shiftl_mul_pow2 by lia.
  change (2 ^ 13) with 8192. change (2 ^ (13 - 1)) with 4096.
  change (2 ^ 10) with 1024.
  pose proof (Z.div_mod (a + 4096 - 1) 8192 ltac:(lia)) as Hdm.
  pose proof (Z.mod_pos_bound (a + 4096 - 1) 8192 ltac:(lia)) as Hm.
  set (a1 := (a + 4096 - 1) / 8192) in *.
  assert (H1 : 0 <= a1 < 1024) by lia.
  rewrite (wrap32_small (a1 * 8192)) by lia.
  rewrite wrap32_small by lia.
  lia.
Qed.

(** The pair is determined by the decomposition and the range of [a0]. *)
Lemma power2round_unique a b1 b0 :
  0 <= a < Q ->
  a = b1 * 2 ^ D + b0 -> - 2 ^ (D - 1) < b0 <= 2 ^ (D - 1) ->
  power2round a = (b1, b0).
Proof.
  intros Ha Hb Hr. destruct (power2round_spec a Ha) as (E & R & _).
  destruct (power2round a) as [a1 a0]. cbn [fst snd] in *.
  unfold D in *. change (2 ^ 13) with 8192 in *.
  change (2 ^ (13 - 1)) with 4096 in *.
  assert (a1 = b1) by lia. subst. f_equal. lia.
Qed.

(** C4.  For a polynomial with coefficients in [0, Q), [poly_power2round]
    splits every coefficient as a = a1 * 2^D + a0 with a0 in
    (-2^(D-1), 2^(D-1)] and a1 >= 0 (D = 13), and this is the only such
    pair: the result is determined by a. *)
Theorem poly_power2round_spec (a : poly) (p : nat) :
  length (coeffs a) = Z.to_nat N -> coeffs_in 0 (Q - 1) (coeffs a) = true ->
  (p < Z.to_nat N)%nat ->
  let a1 := nth p (coeffs (fst (poly_power2round a))) 0 in
  let a0 := nth p (coeffs (snd (poly_power2round a))) 0 in
  nth p (coeffs a) 0 = a1 * 2 ^ D + a0
  /\ - 2 ^ (D - 1) < a0 <= 2 ^ (D - 1)
  /\ 0 <= a1
  /\ (forall b1 b0, nth p (coeffs a) 0 = b1 * 2 ^ D + b0 ->
        - 2 ^ (D - 1) < b0 <= 2 ^ (D - 1) -> b1 = a1 /\ b0 = a0).
Proof.
  intros Hl Hc Hp a1 a0.
  assert (Ha : 0 <= nth p (coeffs a) 0 < Q).
  { pose proof (coeffs_in_nth 0 (Q - 1) (coeffs a) p Hc ltac:(lia)). lia. }
  assert (E1 : a1 = fst (power2round (nth p (coeffs a) 0))).
  { subst a1. unfold poly_power2round. cbn [fst coeffs].
    change 0 with (fst (power2round 0)) at 1.
    apply (map_nth (fun c => fst (power2round c))). }
  assert (E0 : a0 = snd (power2round (nth p (coeffs a) 0))).
  { subst a0. unfold poly_power2round. cbn [snd coeffs].
    change 0 with (snd (power2round 0)) at 1.
    apply (map_nth (fun c => snd (power2round c))). }
  rewrite E1, E0.
  destruct (power2round_spec _ Ha) as (E & R & R1).
  split; [exact E|]. split; [exact R|]. split; [lia|].
  intros b1 b0 Hb Hr.
  pose proof (power2round_unique _ b1 b0 Ha Hb Hr) as Hu.
  rewrite Hu. auto.
Qed.

(** The theorem at coefficient 3 of the polynomial 0, 1, ..., 255. *)
Lemma poly_power2round_spec_witness :
  let a := mkpoly ramp_poly in
  let a1 := nth 3 (coeffs (fst (poly_power2round a))) 0 in
  let a0 := nth 3 (coeffs (snd (poly_power2round a))) 0 in
  nth 3 (coeffs a) 0 = a1 * 2 ^ D + a0
  /\ - 2 ^ (D - 1) < a0 <= 2 ^ (D - 1)
  /\ 0 <= a1
  /\ (forall b1 b0, nth 3 (coeffs a) 0 = b1 * 2 ^ D + b0 ->
        - 2 ^ (D - 1) < b0 <= 2 ^ (D - 1) -> b1 = a1 /\ b0 = a0).
Proof.
  apply (poly_power2round_spec (mkpoly ramp_poly) 3).
  - reflexivity.
  - vm_compute. reflexivity.
  - cbn. lia.
Defined.

Example power2round_samples :
  map power2round [0; 4096; 4097; 8380416]
  = [(0, 0); (0, 4096); (1, -4095); (1023, 0)].
Proof. vm_compute. reflexivity. Qed.

End RoundingTheory.

(** ** Properties of the packing *)

Module PackingTheory.
Import Params Poly ReduceTheory Packing.

Lemma bits_of_length w : forall v, length (bits_of w v) = w.
Proof. induction w as [|w IH]; intros v; cbn [bits_of length]; auto. Qed.

Lemma value_of_bits_of w : forall v,
  0 <= v < 2 ^ Z.of_nat w -> value_of (bits_of w v) = v.
Proof.
  induction w as [|w IH]; intros v Hv.
  - cbn in *. lia.
  - cbn [bits_of value_of].
    rewrite Nat2Z.inj_succ, Z.pow_succ_r in Hv by lia.
    pose proof (Z.div2_odd v) as E.
    rewrite IH; [lia|]. destruct (Z.odd v); cbn [Z.b2z] in E; lia.
Qed.

Lemma bits_of_value_of bs : bits_of (length bs) (value_of bs) = bs.
Proof.
  induction bs as [|b bs IH]; [reflexivity|].
  cbn [length bits_of value_of]. f_equal.
  - rewrite Z.odd_add_mul_2. now destruct b.
  - replace (Z.div2 (Z.b2z b + 2 * value_of bs)) with (value_of bs); [exact IH|].
    rewrite Z.div2_div.
    apply (Z.div_unique _ 2 _ (Z.b2z b)); [destruct b; cbn; lia | lia].
Qed.

Lemma value_of_range bs : 0 <= value_of bs < 2 ^ Z.of_nat (length bs).
Proof.
  induction bs as [|b bs IH]; [cbn; lia|].
  cbn [length value_of]. rewrite Nat2Z.inj_succ, Z.pow_succ_r by lia.
  destruct b; cbn [Z.b2z]; lia.
Qed.

Lemma groups_flat_map {A B : Type} (f : A -> list B) (w : nat) l :
  (forall x, length (f x) = w) ->
  groups w (length l) (flat_map f l) = map f l.
Proof.
  intros Hf. induction l as [|x l IH]; [reflexivity|].
  cbn [length flat_map groups map].
  rewrite firstn_app, skipn_app, Hf, Nat.sub_diag.
  rewrite <- (Hf x) at 1 3. rewrite firstn_all, skipn_all.
  cbn [firstn skipn app]. rewrite app_nil_r. f_equal. exact IH.
Qed.

Lemma groups_length {A : Type} (w n : nat) : forall l : list A,
  length (groups w n l) = n.
Proof. induction n as [|n IH]; intros l; cbn [groups length]; auto. Qed.

Lemma concat_groups {A : Type} (w n : nat) : forall l : list A,
  length l = (n * w)%nat -> concat (groups w n l) = l.
Proof.
  induction n as [|n IH]; intros l Hl.
  - destruct l; [reflexivity | discriminate].
  - cbn [groups concat]. rewrite IH.
    + apply firstn_skipn.
    + rewrite length_skipn. lia.
Qed.

Lemma groups_all_length {A : Type} (w n : nat) : forall l : list A,
  length l = (n * w)%nat ->
  Forall (fun g => length g = w) (groups w n l).
Proof.
  induction n as [|n IH]; intros l Hl; cbn [groups]; constructor.
  - rewrite length_firstn. lia.
  - apply IH. rewrite length_skipn. lia.
Qed.

Lemma flat_map_bits_of_value_of w gs :
  Forall (fun g => length g = w) gs ->
  flat_map (bits_of w) (map value_of gs) = concat gs.
Proof.
  induction 1 as [|g gs Hg _ IH]; [reflexivity|].
  cbn [map flat_map concat]. rewrite IH. f_equal.
  rewrite <- Hg. apply bits_of_value_of.
Qed.

Lemma flat_map_length_const {A B : Type} (f : A -> list B) (w : nat) l :
  (forall x, length (f x) = w) -> length (flat_map f l) = (length l * w)%nat.
Proof.
  intros Hf. induction l as [|x l IH]; [reflexivity|].
  cbn [flat_map length]. rewrite length_app, Hf, IH. lia.
Qed.

(** Bytes written by [pack_bits] are bytes. *)
Lemma pack_bits_bytes w vals :
  (Nat.modulo (length vals * w) 8 = 0)%nat ->
  Forall (fun b => 0 <= b < 256) (pack_bits w vals).
Proof.
  intros Hm. unfold pack_bits.
  rewrite (flat_map_length_const _ w) by apply bits_of_length.
  apply Forall_map.
  eapply Forall_impl; [|apply (groups_all_length 8)].
  - intros g Hg. cbv beta. pose proof (value_of_range g) as H.
    rewrite Hg in H. exact H.
  - rewrite (flat_map_length_const _ w) by apply bits_of_length.
    apply Nat.Div0.div_exact in Hm. lia.
Qed.

Lemma pack_bits_length w vals :
  length (pack_bits w vals) = (length vals * w / 8)%nat.
Proof.
  unfold pack_bits. rewrite length_map, groups_length.
  now rewrite (flat_map_length_const _ w) by apply bits_of_length.
Qed.

(** Unpacking what was packed gives the values back. *)
Lemma unpack_pack_bits w vals :
  (Nat.modulo (length vals * w) 8 = 0)%nat ->
  Forall (fun v => 0 <= v < 2 ^ Z.of_nat w) vals ->
  unpack_bits w (length vals) (pack_bits w vals) = vals.
Proof.
  intros Hm Hv. unfold unpack_bits, pack_bits.
  set (bits := flat_map (bits_of w) vals).
  assert (Hl : length bits = (length vals * w)%nat)
    by (apply flat_map_length_const, bits_of_length).
  assert (Hl8 : length bits = (length bits / 8 * 8)%nat).
  { rewrite Hl. apply Nat.Div0.div_exact in Hm. lia. }
  rewrite flat_map_bits_of_value_of by (apply groups_all_length; exact Hl8).
  rewrite concat_groups by exact Hl8.
  unfold bits. rewrite groups_flat_map by apply bits_of_length.
  rewrite map_map. rewrite <- (map_id vals) at 2.
  apply map_ext_Forall. eapply Forall_impl; [|exact Hv].
  intros v Hr. now apply value_of_bits_of.
Qed.

(** Packing biased coefficients: [bias - c] fits [w] bits when [c] lies in
    [[lo, hi]]. *)
Lemma unpack_pack_biased w bias lo hi a :
  length a = Z.to_nat N -> (Nat.modulo (Z.to_nat N * w) 8 = 0)%nat ->
  0 <= bias - hi -> bias - lo < 2 ^ Z.of_nat w ->
  coeffs_in lo hi a = true ->
  map (fun t => bias - t)
      (unpack_bits w (Z.to_nat N) (pack_bits w (map (fun c => bias - c) a)))
  = a.
Proof.
  intros Hl Hm Hlo Hhi Hc. apply coeffs_in_Forall in Hc.
  rewrite <- Hl in *.
  rewrite <- (length_map (fun c => bias - c) a) at 1.
  rewrite unpack_pack_bits.
  - rewrite map_map. rewrite <- (map_id a) at 2.
    apply map_ext. intros c. lia.
  - now rewrite length_map.
  - apply Forall_map. eapply Forall_impl; [|exact Hc].
    intros c Hr. cbv beta in *. lia.
Qed.

(** C2.  On a polynomial whose coefficients lie in the range of the
    encoding, unpacking the packed bytes gives the polynomial back:
    [-ETA, ETA] for [polyeta], [0, 2^10) for [polyt1],
    (-2^(D-1), 2^(D-1)] for [polyt0] and (-GAMMA1, GAMMA1] for [polyz]. *)
Theorem pack_unpack_roundtrip (md : mode) (a : poly) :
  length (coeffs a) = Z.to_nat N ->
  (coeffs_in (- ETA md) (ETA md) (coeffs a) = true ->
     polyeta_unpack md (polyeta_pack md a) = a)
  /\ (coeffs_in 0 (2 ^ 10 - 1) (coeffs a) = true ->
     polyt1_unpack (polyt1_pack a) = a)
  /\ (coeffs_in (- 2 ^ (D - 1) + 1) (2 ^ (D - 1)) (coeffs a) = true ->
     polyt0_unpack (polyt0_pack a) = a)
  /\ (coeffs_in (- GAMMA1 md + 1) (GAMMA1 md) (coeffs a) = true ->
     polyz_unpack md (polyz_pack md a) = a).
Proof.
  destruct a as [a]. cbn [coeffs].
  intros Hl. split; [|split; [|split]]; intros Hc.
  - unfold polyeta_unpack, polyeta_pack. cbn [coeffs]. f_equal.
    apply (unpack_pack_biased _ _ (- ETA md) (ETA md)); try assumption;
      destruct md; cbn; try reflexivity; lia.
  - unfold polyt1_unpack, polyt1_pack. cbn [coeffs]. f_equal.
    rewrite <- Hl. apply unpack_pack_bits.
    + rewrite Hl. reflexivity.
    + apply coeffs_in_Forall in Hc. eapply Forall_impl; [|exact Hc].
      intros c Hr. cbv beta in *. unfold T1_BITS.
      change (2 ^ Z.of_nat 10) with (2 ^ 10). lia.
  - unfold polyt0_unpack, polyt0_pack. cbn [coeffs]. f_equal.
    apply (unpack_pack_biased _ _ (- 2 ^ (D - 1) + 1) (2 ^ (D - 1)));
      try assumption; cbn; try reflexivity; lia.
  - unfold polyz_unpack, polyz_pack. cbn [coeffs]. f_equal.
    apply (unpack_pack_biased _ _ (- GAMMA1 md + 1) (GAMMA1 md)); try assumption;
      destruct md; cbn; try reflexivity; lia.
Qed.

(** The theorem at the polynomial 0, 1, 2, 0, 1, 2, ..., which lies in all
    four ranges, in mode 2. *)
Lemma pack_unpack_roundtrip_witness :
  let a := mkpoly small_poly in
  polyeta_unpack Mode2 (polyeta_pack Mode2 a) = a
  /\ polyt1_unpack (polyt1_pack a) = a
  /\ polyt0_unpack (polyt0_pack a) = a
  /\ polyz_unpack Mode2 (polyz_pack Mode2 a) = a.
Proof.
  destruct (pack_unpack_roundtrip Mode2 (mkpoly small_poly) eq_refl)
    as (H1 & H2 & H3 & H4).
  cbv zeta.
  split; [|split; [|split]]; [apply H1 | apply H2 | apply H3 | apply H4];
    vm_compute; reflexivity.
Defined.

(** The packed polynomials have the sizes [params.h] defines. *)
Lemma packed_lengths (md : mode) (a : poly) :
  length (coeffs a) = Z.to_nat N ->
  Some (Z.of_nat (length (polyeta_pack md a))) = POLYETA_PACKEDBYTES md
  /\ Z.of_nat (length (polyt1_pack a)) = POLYT1_PACKEDBYTES
  /\ Z.of_nat (length (polyt0_pack a)) = POLYT0_PACKEDBYTES
  /\ Some (Z.of_nat (length (polyz_pack md a))) = POLYZ_PACKEDBYTES md.
Proof.
  intros Hl. unfold polyeta_pack, polyt1_pack, polyt0_pack, polyz_pack.
  rewrite !pack_bits_length, !length_map, Hl.
  destruct md; repeat split.
Qed.

(** Four coefficients of 10 bits fill five bytes; eight coefficients of 3
    bits, biased by ETA = 2, fill three. *)
Example pack_bits_samples :
  pack_bits 10 [1; 2; 3; 4] = [1; 8; 48; 0; 1]
  /\ pack_bits 3 (map (fun c => 2 - c) [2; 1; 0; -1; -2; 0; 1; 2])
     = [136; 70; 5].
Proof. vm_compute. split; reflexivity. Qed.

End PackingTheory.
